(** * New_alarm_mutex.c: the alarm list, its command handlers and the alarm thread

    A shallow embedding of [src/New_alarm_mutex.c].  The linked list
    [alarm_list] is a Rocq list (the [link] field is the tail), every
    handler is a function from the state before the call to its outcome,
    and the body that runs between [pthread_mutex_lock] and
    [pthread_mutex_unlock] is one atomic step.  The [type] field of an alarm
    is a [char*]: it is kept as an address into a store of character
    arrays, because [Start_Alarm] stores the caller's pointer and
    [Change_Alarm] writes through it. *)

From Stdlib Require Import ZArith List Ascii String Lia.
From stdpp Require Import base option list sorting gmap.

Local Open Scope Z_scope.

(** ** Machine integers *)

Module Int.

(** Two's complement wrap-around of [z] to a signed integer of [bits] bits. *)
Definition wrap (bits z : Z) : Z :=
  (z + 2 ^ (bits - 1)) mod 2 ^ bits - 2 ^ (bits - 1).

Definition INT_MAX : Z := 2 ^ 31 - 1.
Definition INT_MIN : Z := - 2 ^ 31.
Definition TIME_MAX : Z := 2 ^ 63 - 1.
Definition TIME_MIN : Z := - 2 ^ 63.

(** [(int) z] and [(time_t) z]; [time_t] is a 64-bit [long]. *)
Definition to_int (z : Z) : Z := wrap 32 z.
Definition to_time_t (z : Z) : Z := wrap 64 z.

Definition is_int (z : Z) : Prop := INT_MIN <= z <= INT_MAX.
Definition is_time_t (z : Z) : Prop := TIME_MIN <= z <= TIME_MAX.

(** [time (NULL) + seconds]: the [int] is promoted, the sum is a [time_t]. *)
Definition time_plus (now seconds : Z) : Z := to_time_t (now + seconds).

(** [sleep_time = alarm->time - now]: a [time_t] difference stored in an [int]. *)
Definition time_diff_int (t now : Z) : Z := to_int (to_time_t (t - now)).

End Int.

(** ** Data *)

(** Address of a character array. *)
Definition ptr : Type := positive.

(** A character array of [capacity] bytes holding the string [text]
    (the characters before the terminating NUL). *)
Record char_array : Type := {
  capacity : nat;
  text : list ascii
}.

(** [alarm_t] without its [link], which is the tail of the list. *)
Record alarm_t : Type := {
  alarm_id : Z;
  seconds : Z;
  type : ptr;
  time : Z;
  message : list ascii
}.

(** [sizeof (alarm->message)] for [char message[64]] and
    [sizeof (alarm->type)] for [char *type]. *)
Definition sizeof_message : nat := 64.
Definition sizeof_type : nat := 8.

(** The two globals the mutex protects, and the character arrays the
    [type] pointers designate. *)
Record state : Type := {
  alarm_list : list alarm_t;
  memory : gmap ptr char_array
}.

(** What the handlers and the alarm thread print. *)
Inductive line : Type :=
| Starting_Alarm (id : Z)
| Allocate_Alarm
| Changing_alarm (id : Z) (ty : list ascii) (secs : Z) (msg : list ascii)
| Could_not_find_alarm (id : Z)
| Canceling_alarm (id : Z)
| Alarm_does_not_exist (id : Z)
| Viewing_Alarms
| There_are_no_alarms
| Alarm_left (id : Z) (ty : list ascii) (secs : Z) (time_left : Z) (msg : list ascii)
| Expired (secs : Z) (msg : list ascii).

(** Ways in which a call leaves defined behaviour. *)
Inductive undefined : Type :=
| Null_dereference
| Out_of_bounds_write
| Invalid_pointer.

(** A call returns with its output and result, runs into undefined
    behaviour, or ends the process ([errno_abort]). *)
Inductive outcome (A : Type) : Type :=
| Returns (out : list line) (a : A)
| Undefined (out : list line) (u : undefined)
| Aborted (out : list line).

Arguments Returns {A} out a.
Arguments Undefined {A} out u.
Arguments Aborted {A} out.

(** Sequencing: the output accumulates, and nothing runs after undefined
    behaviour or after the process has ended. *)
#[export] Instance outcome_bind : MBind outcome := fun A B k c =>
  match c with
  | Returns out a =>
      match k a with
      | Returns out' b => Returns (out ++ out') b
      | Undefined out' u => Undefined (out ++ out') u
      | Aborted out' => Aborted (out ++ out')
      end
  | Undefined out u => Undefined out u
  | Aborted out => Aborted out
  end.

(** ** Writes to character arrays *)

(** [strcpy (dst, src)] into an array of the store: [length src + 1] bytes
    are written.  Copying an array onto itself leaves it as it is. *)
Definition strcpy (dst : ptr) (src : list ascii) (m : gmap ptr char_array)
  : undefined + gmap ptr char_array :=
  match m !! dst with
  | None => inl Invalid_pointer
  | Some b =>
      if (capacity b <=? length src)%nat then inl Out_of_bounds_write
      else inr (<[dst := {| capacity := capacity b; text := src |}]> m)
  end.

(** [dst[i] = '\0']. *)
Definition store_nul (dst : ptr) (i : nat) (m : gmap ptr char_array)
  : undefined + gmap ptr char_array :=
  match m !! dst with
  | None => inl Invalid_pointer
  | Some b =>
      if (capacity b <=? i)%nat then inl Out_of_bounds_write
      else inr (<[dst := {| capacity := capacity b; text := take i (text b) |}]> m)
  end.

(** [strcpy (alarm->message, message)] into the 64 bytes of the struct. *)
Definition strcpy_message (msg : list ascii) : undefined + list ascii :=
  if (sizeof_message <=? length msg)%nat then inl Out_of_bounds_write
  else inr msg.

(** ** Start_Alarm *)

(** The scan of lines 163-174: the value of [alarm->link] when the loop
    ends, which is the list from the first alarm whose id is not below
    [id], or NULL. *)
Fixpoint Start_Alarm_scan (id : Z) (next : list alarm_t) : list alarm_t :=
  match next with
  | [] => []
  | n :: link => if alarm_id n >=? id then n :: link else Start_Alarm_scan id link
  end.

Definition Start_Alarm (malloc_ok : bool) (now : Z)
    (id : Z) (ty : ptr) (secs : Z) (msg : list ascii) (st : state)
  : outcome state :=
  if negb malloc_ok then
    (* free (NULL); perror; then alarm->alarm_id = alarm_id through NULL *)
    Undefined [Starting_Alarm id; Allocate_Alarm] Null_dereference
  else
    match strcpy_message msg with
    | inl u => Undefined [Starting_Alarm id] u
    | inr stored =>
        let alarm := {| alarm_id := id; seconds := secs; type := ty;
                        time := Int.time_plus now secs; message := stored |} in
        (* line 175: alarm_list = alarm *)
        Returns [Starting_Alarm id]
          {| alarm_list := alarm :: Start_Alarm_scan id (alarm_list st);
             memory := memory st |}
    end.

(** ** Change_Alarm *)

(** Lines 202-207, on the alarm that was found. *)
Definition Change_Alarm_update (now : Z) (ty : list ascii) (secs : Z)
    (msg : list ascii) (alarm : alarm_t) (m : gmap ptr char_array)
  : undefined + (alarm_t * gmap ptr char_array) :=
  match strcpy (type alarm) ty m with
  | inl u => inl u
  | inr m1 =>
      match store_nul (type alarm) (sizeof_type - 1) m1 with
      | inl u => inl u
      | inr m2 =>
          match strcpy_message msg with
          | inl u => inl u
          | inr stored =>
              inr ({| alarm_id := alarm_id alarm; seconds := secs;
                      type := type alarm; time := Int.time_plus now secs;
                      message := take (sizeof_message - 1) stored |}, m2)
          end
      end
  end.

(** The search of lines 198-214: [None] when the loop ends with
    [alarm == NULL]. *)
Fixpoint Change_Alarm_loop (id : Z)
    (update : alarm_t -> gmap ptr char_array -> undefined + (alarm_t * gmap ptr char_array))
    (alarm : list alarm_t) (m : gmap ptr char_array)
  : undefined + option (list alarm_t * gmap ptr char_array) :=
  match alarm with
  | [] => inr None
  | a :: link =>
      if alarm_id a =? id then
        match update a m with
        | inl u => inl u
        | inr (a', m') => inr (Some (a' :: link, m'))
        end
      else
        match Change_Alarm_loop id update link m with
        | inl u => inl u
        | inr None => inr None
        | inr (Some (link', m')) => inr (Some (a :: link', m'))
        end
  end.

Definition Change_Alarm (now : Z) (id : Z) (ty : ptr) (secs : Z)
    (msg : list ascii) (st : state) : outcome state :=
  match memory st !! ty with
  | None => Undefined [] Invalid_pointer
  | Some src =>
      let out := [Changing_alarm id (text src) secs msg] in
      match Change_Alarm_loop id (Change_Alarm_update now (text src) secs msg)
              (alarm_list st) (memory st) with
      | inl u => Undefined out u
      | inr None => Returns (out ++ [Could_not_find_alarm id]) st
      | inr (Some (l, m)) => Returns out {| alarm_list := l; memory := m |}
      end
  end.

(** ** Cancel_Alarm *)

(** Lines 242-261: the list without the first alarm whose id is [id];
    [None] when the loop ends with [alarm == NULL]. *)
Fixpoint Cancel_Alarm_loop (id : Z) (alarm : list alarm_t) : option (list alarm_t) :=
  match alarm with
  | [] => None
  | a :: link =>
      if alarm_id a =? id then Some link
      else match Cancel_Alarm_loop id link with
           | None => None
           | Some link' => Some (a :: link')
           end
  end.

Definition Cancel_Alarm (id : Z) (st : state) : outcome state :=
  match Cancel_Alarm_loop id (alarm_list st) with
  | None => Returns [Canceling_alarm id; Alarm_does_not_exist id] st
  | Some l => Returns [Canceling_alarm id] {| alarm_list := l; memory := memory st |}
  end.

(** ** View_Alarms *)

(** The [for] loop of lines 297-301, one [printf] for each alarm: the
    lines printed, and what stops the loop before the end of the list.
    [%s] reads the [type] of an alarm through its pointer; the lines of
    the alarms before an alarm whose pointer designates no array are
    printed. *)
Fixpoint View_Alarms_loop (now : Z) (m : gmap ptr char_array)
    (alarm : list alarm_t) : list line * option undefined :=
  match alarm with
  | [] => ([], None)
  | a :: link =>
      match m !! type a with
      | None => ([], Some Invalid_pointer)
      | Some b =>
          let '(out, stop) := View_Alarms_loop now m link in
          (Alarm_left (alarm_id a) (text b) (seconds a)
             (Int.to_int (Int.to_time_t (time a - now))) (message a) :: out,
           stop)
      end
  end.

Definition View_Alarms (now : Z) (st : state) : outcome state :=
  match alarm_list st with
  | [] => Returns [Viewing_Alarms; There_are_no_alarms] st
  | _ :: _ =>
      match View_Alarms_loop now (memory st) (alarm_list st) with
      | (out, Some u) => Undefined (Viewing_Alarms :: out) u
      | (out, None) => Returns (Viewing_Alarms :: out) st
      end
  end.

(** ** alarm_thread *)

(** One turn of the [while (1)] loop of [alarm_thread]: the alarm taken
    off the list (NULL when the list is empty), the value of [sleep_time]
    and the state when the mutex is released. *)
Record iteration : Type := {
  alarm : option alarm_t;
  sleep_time : Z;
  unlocked : state
}.

Definition alarm_thread (now : Z) (st : state) : iteration :=
  match alarm_list st with
  | [] => {| alarm := None; sleep_time := 1; unlocked := st |}
  | a :: link =>
      {| alarm := Some a;
         sleep_time := if time a <=? now then 0 else Int.time_diff_int (time a) now;
         unlocked := {| alarm_list := link; memory := memory st |} |}
  end.

(** Lines 96-99: [sleep (sleep_time)] when it is positive, [sched_yield]
    otherwise; the seconds the thread waits. *)
Definition waits (it : iteration) : Z :=
  if sleep_time it >? 0 then sleep_time it else 0.

(** Lines 105-108, after the wait. *)
Definition prints (it : iteration) : list line :=
  match alarm it with
  | None => []
  | Some a => [Expired (seconds a) (message a)]
  end.

(** ** main *)

(** The insertion of lines 384-405, for a request given as seconds and a
    message: before the first alarm that does not expire earlier. *)
Fixpoint main_insert (alarm : alarm_t) (next : list alarm_t) : list alarm_t :=
  match next with
  | [] => [alarm]
  | n :: link =>
      if time n >=? time alarm then alarm :: n :: link
      else n :: main_insert alarm link
  end.

(** A line of input as [sscanf] splits it.  A line that matches no
    format may still have had its type stored by the [sscanf] of a
    [Start_Alarm] or [Change_Alarm] format that failed further on. *)
Inductive command : Type :=
| Start_Alarm_line (id : Z) (ty : list ascii) (secs : Z) (msg : list ascii)
| Change_Alarm_line (id : Z) (ty : list ascii) (secs : Z) (msg : list ascii)
| Cancel_Alarm_line (id : Z)
| View_Alarms_line
| Timed_line (secs : Z) (msg : list ascii)
| Bad_command (ty : option (list ascii)).

(** What one turn of [main]'s loop takes from its environment: the clock,
    whether the two [malloc] calls succeed (line 331 and line 145), and
    the values the uninitialised [alarm_id] and [type] of the block of
    line 331 happen to hold. *)
Record env : Type := {
  now : Z;
  main_malloc : bool;
  Start_malloc : bool;
  fresh_id : Z;
  fresh_type : ptr
}.

(** [char type[65]] of [main], and the size of its [char message[65]]. *)
Definition main_type : ptr := 1%positive.
Definition sizeof_main_type : nat := 65.
Definition sizeof_main_message : nat := 65.

Definition alarm_list_NULL : state :=
  {| alarm_list := [];
     memory := {[ main_type := {| capacity := sizeof_main_type; text := [] |} ]} |}.

(** Modelled from the spec: [errno_abort] is a macro of [errors.h], which
    is not among the sources; like the lock failures of section 7, the
    failure it reports ends the process. *)
Definition errno_abort {A : Type} : outcome A := Aborted [].

Definition lift {A : Type} (out : list line) (r : undefined + A) : outcome A :=
  match r with
  | inl u => Undefined out u
  | inr a => Returns out a
  end.

(** [sscanf] with ["T%s %d %128[^\n]"] into [type] and [message] of
    [main]: the type is stored whole, the message up to 128 characters. *)
Definition sscanf_type_message (ty msg : list ascii) (st : state)
  : outcome (list ascii * state) :=
  m ← lift [] (strcpy main_type ty (memory st));
  if (sizeof_main_message <=? length (take 128 msg))%nat
  then Undefined [] Out_of_bounds_write
  else Returns [] (take 128 msg, {| alarm_list := alarm_list st; memory := m |}).

(** One turn of the [while (1)] loop of [main] on a line that is not
    empty.  The lines [main] prints itself are left out. *)
Definition main (e : env) (c : command) (st : state) : outcome state :=
  if negb (main_malloc e) then errno_abort
  else
    match c with
    | Start_Alarm_line id ty secs msg =>
        '(message, st') ← sscanf_type_message ty msg st;
        Start_Alarm (Start_malloc e) (now e) id main_type secs message st'
    | Change_Alarm_line id ty secs msg =>
        '(message, st') ← sscanf_type_message ty msg st;
        Change_Alarm (now e) id main_type secs message st'
    | Cancel_Alarm_line id => Cancel_Alarm id st
    | View_Alarms_line => View_Alarms (now e) st
    | Timed_line secs msg =>
        (* "%d %64[^\n]" into alarm->seconds and alarm->message *)
        stored ← lift [] (strcpy_message (take 64 msg));
        let alarm := {| alarm_id := fresh_id e; seconds := secs;
                        type := fresh_type e;
                        time := Int.time_plus (now e) secs;
                        message := stored |} in
        Returns [] {| alarm_list := main_insert alarm (alarm_list st);
                      memory := memory st |}
    | Bad_command None => Returns [] st
    | Bad_command (Some ty) =>
        m ← lift [] (strcpy main_type ty (memory st));
        Returns [] {| alarm_list := alarm_list st; memory := m |}
    end.

(** ** The two threads together *)

(** The mutex orders the critical sections of the two threads: a run is a
    sequence of turns of [main] and of [alarm_thread]. *)
Inductive event : Type :=
| Main (e : env) (c : command)
| Alarm_thread (now : Z).

Definition step (ev : event) (st : state) : outcome state :=
  match ev with
  | Main e c => main e c st
  | Alarm_thread now =>
      let it := alarm_thread now st in Returns (prints it) (unlocked it)
  end.

Fixpoint run (evs : list event) (st : state) : outcome state :=
  match evs with
  | [] => Returns [] st
  | ev :: evs' => st' ← step ev st; run evs' st'
  end.

(** ** trimwhitespace *)

(** [isspace] in the C locale: the space and the characters from
    ['\t'] (9) to ['\r'] (13). *)
Definition isspace (c : ascii) : bool :=
  let n := nat_of_ascii c in
  (n =? 32)%nat || ((9 <=? n)%nat && (n <=? 13)%nat).

(** Line 121, [while (isspace (str[0])) str++]: the string from the new
    [str] on. *)
Fixpoint trim_leading (str : list ascii) : list ascii :=
  match str with
  | [] => []
  | c :: rest => if isspace c then trim_leading rest else str
  end.

(** Line 128, [while (end > str && isspace (end[0])) end--], with [end]
    counted from [str]; the character at the length of the string is the
    NUL, which is no space. *)
Fixpoint trim_trailing (str : list ascii) (end_ : nat) : nat :=
  match end_ with
  | O => O
  | S e =>
      match str !! end_ with
      | Some c => if isspace c then trim_trailing str e else end_
      | None => end_
      end
  end.

(** The string at the pointer [trimwhitespace] returns, for a string
    (the characters before its NUL) at [str]: [str] itself after the
    leading spaces when nothing else is left, and otherwise that string
    up to the NUL that line 131 stores at [end[1]]. *)
Definition trimwhitespace (str : list ascii) : list ascii :=
  match trim_leading str with
  | [] => []
  | (_ :: _) as s => take (S (trim_trailing s (length s - 1))) s
  end.

(** All the characters are spaces for [isspace]. *)
Definition blank (s : list ascii) : Prop :=
  Forall (fun c => isspace c = true) s.

(** Neither the first nor the last character is a space. *)
Definition trimmed (s : list ascii) : Prop :=
  (forall c, head s = Some c -> isspace c = false)
  /\ (forall c, last s = Some c -> isspace c = false).

(** ** The type array of main *)

(** The state has the [type] array of [main], and the [type] of every
    alarm on the list points to it. *)
Definition shares_type (st : state) : Prop :=
  (exists b, memory st !! main_type = Some b /\ capacity b = sizeof_main_type)
  /\ Forall (fun a => type a = main_type) (alarm_list st).

(** The line [View_Alarms] prints for an alarm whose [type] points to the
    string [ty]. *)
Definition view_line (now : Z) (ty : list ascii) (a : alarm_t) : line :=
  Alarm_left (alarm_id a) ty (seconds a)
    (Int.to_int (Int.to_time_t (time a - now))) (message a).

(** ** The order of the list *)

(** [key] does not decrease along the list. *)
Definition ascending (key : alarm_t -> Z) (l : list alarm_t) : Prop :=
  StronglySorted (fun a b => key a <= key b) l.

(** The scheduling order in the words of the specification: by expiry,
    and by id among alarms of equal expiry. *)
Definition scheduling_order (a b : alarm_t) : Prop :=
  time a < time b \/ (time a = time b /\ alarm_id a <= alarm_id b).

Definition in_scheduling_order (l : list alarm_t) : Prop :=
  Sorted scheduling_order l.

(** The ids of the alarms on the list. *)
Definition ids (st : state) : list Z := alarm_id <$> alarm_list st.

Definition live (id : Z) (st : state) : bool :=
  existsb (fun a => alarm_id a =? id) (alarm_list st).

(** The id a turn puts on the list, if it puts one. *)
Definition created_id (ev : event) : option Z :=
  match ev with
  | Main _ (Start_Alarm_line id _ _ _) => Some id
  | Main e (Timed_line _ _) => Some (fresh_id e)
  | _ => None
  end.

(** Along the run from [st], no turn creates an alarm under an id that is
    on the list at that moment. *)
Fixpoint creates_unused_ids (evs : list event) (st : state) : bool :=
  match evs with
  | [] => true
  | ev :: evs' =>
      match created_id ev with
      | Some id => negb (live id st)
      | None => true
      end
      && match step ev st with
         | Returns _ st' => creates_unused_ids evs' st'
         | _ => true
         end
  end.

(** The turn is not an insertion by expiry time (lines 368-416). *)
Definition by_id (ev : event) : bool :=
  match ev with
  | Main _ (Timed_line _ _) => false
  | _ => true
  end.

(** The turn is not a [Start_Alarm] or a [Change_Alarm] command. *)
Definition by_time (ev : event) : bool :=
  match ev with
  | Main _ (Start_Alarm_line _ _ _ _) => false
  | Main _ (Change_Alarm_line _ _ _ _) => false
  | _ => true
  end.

(** The effect of one turn on the list, by the kind of turn. *)
Inductive effect (st st' : state) : event -> Prop :=
| effect_Start e id ty secs msg a :
    alarm_id a = id ->
    time a = Int.time_plus (now e) secs ->
    alarm_list st' = a :: Start_Alarm_scan id (alarm_list st) ->
    effect st st' (Main e (Start_Alarm_line id ty secs msg))
| effect_Change e id ty secs msg before a a' after :
    alarm_list st = before ++ a :: after ->
    alarm_list st' = before ++ a' :: after ->
    alarm_id a' = alarm_id a ->
    time a' = Int.time_plus (now e) secs ->
    effect st st' (Main e (Change_Alarm_line id ty secs msg))
| effect_Cancel e id before a after :
    alarm_list st = before ++ a :: after ->
    alarm_list st' = before ++ after ->
    effect st st' (Main e (Cancel_Alarm_line id))
| effect_Timed e secs msg before a after :
    alarm_id a = fresh_id e ->
    time a = Int.time_plus (now e) secs ->
    alarm_list st = before ++ after ->
    alarm_list st' = before ++ a :: after ->
    Forall (fun b => time b < time a) before ->
    match after with
    | [] => True
    | n :: _ => time a <= time n
    end ->
    effect st st' (Main e (Timed_line secs msg))
| effect_thread now a :
    alarm_list st = a :: alarm_list st' ->
    effect st st' (Alarm_thread now)
| effect_none ev :
    created_id ev = None ->
    alarm_list st' = alarm_list st ->
    effect st st' ev.

(** The cases of [effect], with the names the proofs below use. *)
Ltac effect_cases H :=
  destruct H as [e id ty secs msg a Ha Ht Hl'
                |e id ty secs msg before a a' after Hl Hl' Hid Ht
                |e id before a after Hl Hl'
                |e secs msg before a after Ha Ht Hl Hl' Hb Hafter
                |now a Hl
                |ev Hnone Hl']; simpl.

(** ** The clock along a run *)

(** What [time (NULL)] returns during a turn. *)
Definition clock (ev : event) : Z :=
  match ev with
  | Main e _ => now e
  | Alarm_thread t => t
  end.

(** The seconds a line asks for, when it sets an expiry time. *)
Definition requested (ev : event) : option Z :=
  match ev with
  | Main _ (Start_Alarm_line _ _ secs _) => Some secs
  | Main _ (Change_Alarm_line _ _ secs _) => Some secs
  | Main _ (Timed_line secs _) => Some secs
  | _ => None
  end.

(** From the time [t] on the clock does not go back along the run, it
    stays at least [INT_MAX] seconds below the end of [time_t], and the
    seconds the lines ask for are values of an [int]. *)
Fixpoint well_timed (t : Z) (evs : list event) : Prop :=
  match evs with
  | [] => True
  | ev :: evs' =>
      t <= clock ev
      /\ clock ev <= Int.TIME_MAX - Int.INT_MAX
      /\ match requested ev with
         | Some secs => Int.is_int secs
         | None => True
         end
      /\ well_timed (clock ev) evs'
  end.

(** The clock of the last turn of the run, [t] for the empty run. *)
Fixpoint last_clock (t : Z) (evs : list event) : Z :=
  match evs with
  | [] => t
  | ev :: evs' => last_clock (clock ev) evs'
  end.

(** ** Sample runs *)

(** A turn of [main] at time [t] in which both allocations succeed. *)
Definition at_time (t : Z) : env :=
  {| now := t; main_malloc := true; Start_malloc := true;
     fresh_id := 0; fresh_type := main_type |}.

(** Alarms 3, 2 and 1 are started, 3 is changed and 2 is cancelled. *)
Definition run_1_3 : list event :=
  [Main (at_time 0) (Start_Alarm_line 3 (list_ascii_of_string "A") 30 []);
   Main (at_time 1) (Start_Alarm_line 2 (list_ascii_of_string "B") 20 []);
   Main (at_time 2) (Change_Alarm_line 3 (list_ascii_of_string "C") 40 []);
   Main (at_time 3) (Start_Alarm_line 1 (list_ascii_of_string "D") 10 []);
   Main (at_time 4) (Cancel_Alarm_line 2)].

(** Alarm 2 is started twice. *)
Definition run_2_2 : list event :=
  [Main (at_time 0) (Start_Alarm_line 2 (list_ascii_of_string "A") 200
                       (list_ascii_of_string "first"));
   Main (at_time 0) (Start_Alarm_line 2 (list_ascii_of_string "B") 100
                       (list_ascii_of_string "second"))].

(** Alarm 2, due in 5 seconds, is started before alarm 1, due in 100. *)
Definition run_1_2 : list event :=
  [Main (at_time 0) (Start_Alarm_line 2 (list_ascii_of_string "A") 5
                       (list_ascii_of_string "soon"));
   Main (at_time 0) (Start_Alarm_line 1 (list_ascii_of_string "B") 100
                       (list_ascii_of_string "late"))].

(** Alarm 2, due in 200 seconds, is started before alarm 1, due in 100. *)
Definition run_100_200 : list event :=
  [Main (at_time 0) (Start_Alarm_line 2 (list_ascii_of_string "A") 200
                       (list_ascii_of_string "two"));
   Main (at_time 0) (Start_Alarm_line 1 (list_ascii_of_string "B") 100
                       (list_ascii_of_string "one"))].

(** Requests by seconds and message, for 30, 7 and 5 seconds; the alarm
    thread takes the first alarm, and a [Cancel_Alarm] names an id that
    no alarm has. *)
Definition run_timed : list event :=
  [Main (at_time 0) (Timed_line 30 (list_ascii_of_string "c"));
   Main (at_time 0) (Timed_line 7 (list_ascii_of_string "a"));
   Main {| now := 0; main_malloc := true; Start_malloc := true;
           fresh_id := 5; fresh_type := main_type |}
        (Timed_line 5 (list_ascii_of_string "b"));
   Alarm_thread 1;
   Main (at_time 2) (Cancel_Alarm_line 9)].

(** * Properties *)

(** ** Machine integers *)

Lemma to_int_small z : Int.is_int z -> Int.to_int z = z.
Proof.
  unfold Int.is_int, Int.INT_MIN, Int.INT_MAX, Int.to_int, Int.wrap.
  intros H. simpl in *. rewrite Z.mod_small; lia.
Qed.

Lemma to_time_t_small z : Int.is_time_t z -> Int.to_time_t z = z.
Proof.
  unfold Int.is_time_t, Int.TIME_MIN, Int.TIME_MAX, Int.to_time_t, Int.wrap.
  intros H. simpl in *. rewrite Z.mod_small; lia.
Qed.

Lemma time_diff_int_small t now :
  Int.is_int (t - now) -> Int.time_diff_int t now = t - now.
Proof.
  intros H. unfold Int.time_diff_int.
  rewrite to_time_t_small.
  - by apply to_int_small.
  - unfold Int.is_int, Int.is_time_t, Int.INT_MIN, Int.INT_MAX,
      Int.TIME_MIN, Int.TIME_MAX in *. simpl in *. lia.
Qed.

Lemma time_plus_small now secs :
  Int.is_time_t (now + secs) -> Int.time_plus now secs = now + secs.
Proof. apply to_time_t_small. Qed.

(** ** The loops *)

Lemma Start_Alarm_scan_suffix id l :
  exists skipped, l = skipped ++ Start_Alarm_scan id l
    /\ Forall (fun a => alarm_id a < id) skipped.
Proof.
  induction l as [|n link IH]; simpl.
  - by exists [].
  - destruct (Z.geb_spec (alarm_id n) id) as [Hge|Hlt].
    + by exists [].
    + destruct IH as (skipped & Heq & Hall).
      exists (n :: skipped). split.
      * simpl. by f_equal.
      * constructor; [lia | done].
Qed.

Lemma Start_Alarm_scan_all_below id l :
  Forall (fun a => alarm_id a < id) l -> Start_Alarm_scan id l = [].
Proof.
  induction 1 as [|n link Hn _ IH]; simpl; [done|].
  destruct (Z.geb_spec (alarm_id n) id); [lia | done].
Qed.

Lemma Start_Alarm_scan_head id n link :
  id <= alarm_id n -> Start_Alarm_scan id (n :: link) = n :: link.
Proof.
  intros H. simpl. destruct (Z.geb_spec (alarm_id n) id); [done | lia].
Qed.

Lemma Start_Alarm_scan_elem id l a :
  a ∈ Start_Alarm_scan id l -> a ∈ l.
Proof.
  destruct (Start_Alarm_scan_suffix id l) as (skipped & Heq & _).
  intros Ha. rewrite Heq. apply elem_of_app. by right.
Qed.

Lemma Cancel_Alarm_loop_None id l :
  Cancel_Alarm_loop id l = None <-> Forall (fun a => alarm_id a <> id) l.
Proof.
  induction l as [|a link IH]; simpl.
  - split; [constructor | done].
  - destruct (Z.eqb_spec (alarm_id a) id) as [Heq|Hne].
    + split; [done|]. inversion 1; subst. contradiction.
    + destruct (Cancel_Alarm_loop id link) eqn:E.
      * split; [done|]. inversion 1; subst.
        destruct IH as [_ IH]. by specialize (IH ltac:(assumption)).
      * split; [|done]. intros _. constructor; [done|]. by apply IH.
Qed.

Lemma Cancel_Alarm_loop_Some id l l' :
  Cancel_Alarm_loop id l = Some l' ->
  exists before a after,
    l = before ++ a :: after /\ l' = before ++ after /\ alarm_id a = id
    /\ Forall (fun b => alarm_id b <> id) before.
Proof.
  revert l'. induction l as [|a link IH]; simpl; intros l' H; [done|].
  destruct (Z.eqb_spec (alarm_id a) id) as [Heq|Hne].
  - inversion H; subst. by exists [], a, l'.
  - destruct (Cancel_Alarm_loop id link) as [link'|]; [|done].
    inversion H; subst.
    destruct (IH link' eq_refl) as (before & x & after & -> & -> & Hx & Hb).
    exists (a :: before), x, after. repeat split; try done.
    by constructor.
Qed.

Lemma Change_Alarm_loop_None id update l m :
  Forall (fun a => alarm_id a <> id) l ->
  Change_Alarm_loop id update l m = inr None.
Proof.
  induction 1 as [|a link Ha _ IH]; simpl; [done|].
  destruct (Z.eqb_spec (alarm_id a) id); [done|]. by rewrite IH.
Qed.

Lemma Change_Alarm_loop_found id update before a after m a' m' :
  Forall (fun b => alarm_id b <> id) before ->
  alarm_id a = id ->
  update a m = inr (a', m') ->
  Change_Alarm_loop id update (before ++ a :: after) m
  = inr (Some (before ++ a' :: after, m')).
Proof.
  intros Hb Ha Hu. induction Hb as [|b before Hne _ IH]; simpl.
  - destruct (Z.eqb_spec (alarm_id a) id); [|done]. by rewrite Hu.
  - destruct (Z.eqb_spec (alarm_id b) id); [done|]. by rewrite IH.
Qed.

(** Whatever the update does to the alarm it is given, the loop changes
    the list at one place only. *)
Lemma Change_Alarm_loop_Some id update l m l' m' :
  Change_Alarm_loop id update l m = inr (Some (l', m')) ->
  exists before a a' after,
    l = before ++ a :: after /\ l' = before ++ a' :: after
    /\ alarm_id a = id /\ update a m = inr (a', m').
Proof.
  revert l'. induction l as [|a link IH]; simpl; intros l' H; [done|].
  destruct (Z.eqb_spec (alarm_id a) id) as [Heq|Hne].
  - destruct (update a m) as [u|[a' m1]] eqn:E; [done|].
    inversion H; subst. by exists [], a, a', link.
  - destruct (Change_Alarm_loop id update link m) as [u|[[link' m1]|]]; try done.
    inversion H; subst.
    destruct (IH link' eq_refl) as (before & x & x' & after & -> & -> & Hx & Hu).
    by exists (a :: before), x, x', after.
Qed.

Lemma Change_Alarm_update_id now ty secs msg a m a' m' :
  Change_Alarm_update now ty secs msg a m = inr (a', m') ->
  alarm_id a' = alarm_id a /\ time a' = Int.time_plus now secs.
Proof.
  unfold Change_Alarm_update. intros H.
  destruct (strcpy _ _ _); [done|].
  destruct (store_nul _ _ _); [done|].
  destruct (strcpy_message _); [done|].
  by inversion H; subst.
Qed.

(** ** Start_Alarm *)

(** When [malloc] succeeds and the message fits, [Start_Alarm] returns
    with the new alarm in front of what the scan found. *)
Lemma Start_Alarm_returns now id ty secs msg st :
  (length msg < sizeof_message)%nat ->
  Start_Alarm true now id ty secs msg st
  = Returns [Starting_Alarm id]
      {| alarm_list :=
           {| alarm_id := id; seconds := secs; type := ty;
              time := Int.time_plus now secs; message := msg |}
           :: Start_Alarm_scan id (alarm_list st);
         memory := memory st |}.
Proof.
  intros Hlen. unfold Start_Alarm, strcpy_message.
  destruct (Nat.leb_spec sizeof_message (length msg)); [lia | done].
Qed.

Lemma Start_Alarm_inv malloc_ok now id ty secs msg st out st' :
  Start_Alarm malloc_ok now id ty secs msg st = Returns out st' ->
  exists a, alarm_id a = id
    /\ time a = Int.time_plus now secs
    /\ alarm_list st' = a :: Start_Alarm_scan id (alarm_list st)
    /\ memory st' = memory st.
Proof.
  unfold Start_Alarm. destruct malloc_ok; simpl; [|done].
  destruct (strcpy_message msg); [done|].
  intros H. inversion H; subst. simpl.
  eexists. split; [|split; [|split; reflexivity]]; reflexivity.
Qed.

(** C10: every insertion by [Start_Alarm] makes the new alarm the head of
    the list, in front of the alarms from the position the scan found
    on; when the new id is above every id on the list the new alarm is
    the whole list, and none of the alarms stored before is on it. *)
Theorem Start_Alarm_new_head now id ty secs msg st :
  (length msg < sizeof_message)%nat ->
  let new := {| alarm_id := id; seconds := secs; type := ty;
                time := Int.time_plus now secs; message := msg |} in
  exists st',
    Start_Alarm true now id ty secs msg st = Returns [Starting_Alarm id] st'
    /\ alarm_list st' = new :: Start_Alarm_scan id (alarm_list st)
    /\ (Forall (fun a => alarm_id a < id) (alarm_list st) ->
        alarm_list st' = [new]
        /\ forall a, a ∈ alarm_list st -> a ∉ alarm_list st').
Proof.
  intros Hlen new. eexists. split; [by apply Start_Alarm_returns|].
  simpl. split; [done|]. intros Hall.
  rewrite (Start_Alarm_scan_all_below _ _ Hall). split; [done|].
  intros a Ha Hin. apply list_elem_of_singleton in Hin. subst a.
  rewrite Forall_forall in Hall. specialize (Hall _ Ha). simpl in Hall. lia.
Qed.

Lemma Start_Alarm_new_head_witness :
  exists st',
    Start_Alarm true 0 2 main_type 100 (list_ascii_of_string "b")
      {| alarm_list := [ {| alarm_id := 1; seconds := 5; type := main_type;
                            time := 5; message := list_ascii_of_string "a" |} ];
         memory := ∅ |}
    = Returns [Starting_Alarm 2] st'
    /\ alarm_list st'
       = [ {| alarm_id := 2; seconds := 100; type := main_type;
              time := 100; message := list_ascii_of_string "b" |} ].
Proof.
  destruct (Start_Alarm_new_head 0 2 main_type 100 (list_ascii_of_string "b")
              {| alarm_list := [ {| alarm_id := 1; seconds := 5; type := main_type;
                                    time := 5; message := list_ascii_of_string "a" |} ];
                 memory := ∅ |})
    as (st' & Hret & _ & Hall).
  - simpl. unfold sizeof_message. lia.
  - exists st'. split; [exact Hret|].
    apply Hall. constructor; [simpl; lia | constructor].
Defined.

(** C9: when the [malloc] of line 145 returns NULL, [Start_Alarm] reports
    it with [perror] and goes on to store the fields through the null
    pointer: the command does not fail cleanly. *)
Theorem Start_Alarm_malloc_NULL now id ty secs msg st :
  Start_Alarm false now id ty secs msg st
  = Undefined [Starting_Alarm id; Allocate_Alarm] Null_dereference.
Proof. reflexivity. Qed.

(** In [main] the [malloc] of line 331 ends the process instead. *)
Lemma main_malloc_NULL e c st :
  main_malloc e = false -> main e c st = errno_abort.
Proof. intros H. unfold main. by rewrite H. Qed.

(** C8: a message of 65 characters is copied whole by the [strcpy] of
    [Start_Alarm] and by the one of [Change_Alarm], past the 64 bytes of
    [alarm->message]; neither call cuts it or turns it down.  Read from a
    line by [main], it is stored past the 65 bytes of the [message] of
    [main] before the handler is called, and a message of 64 characters
    fits there and not in the alarm. *)
Theorem strcpy_message_overflows :
  let msg := repeat "a"%char 65 in
  let a := {| alarm_id := 1; seconds := 5; type := main_type; time := 5;
              message := [] |} in
  let ty := list_ascii_of_string "1" in
  Start_Alarm true 0 1 main_type 5 msg alarm_list_NULL
  = Undefined [Starting_Alarm 1] Out_of_bounds_write
  /\ Change_Alarm 0 1 main_type 5 msg
       {| alarm_list := [a]; memory := memory alarm_list_NULL |}
     = Undefined [Changing_alarm 1 [] 5 msg] Out_of_bounds_write
  /\ main (at_time 0) (Start_Alarm_line 1 ty 5 msg) alarm_list_NULL
     = Undefined [] Out_of_bounds_write
  /\ main (at_time 0) (Start_Alarm_line 1 ty 5 (repeat "a"%char 64))
       alarm_list_NULL
     = Undefined [Starting_Alarm 1] Out_of_bounds_write.
Proof. repeat split; vm_compute; reflexivity. Qed.

(** ** alarm_thread *)

(** The claim of C7 fails.  Alarm 1 is started at time 1000 for
    2147483647 seconds and the clock reads 999 at the turn of the alarm
    thread: the time left, 2147483648 seconds, does not fit the [int]
    that [sleep_time] is, which holds -2147483648, and the thread does
    not wait.  After alarm 2, due at 5, and alarm 1, due at 100, the
    thread takes the first alarm of the list and waits 100 seconds, and
    not the 5 left to the alarm that expires next. *)
Lemma alarm_thread_wait_not_expiry :
  (exists out st a link,
     run [Main (at_time 1000)
            (Start_Alarm_line 1 (list_ascii_of_string "A") 2147483647
               (list_ascii_of_string "x"))]
       alarm_list_NULL
     = Returns out st
     /\ alarm_list st = a :: link
     /\ 999 < time a
     /\ time a - 999 = 2147483648
     /\ sleep_time (alarm_thread 999 st) = -2147483648
     /\ waits (alarm_thread 999 st) = 0
     /\ waits (alarm_thread 999 st) <> time a - 999)
  /\ (exists out st,
        run run_1_2 alarm_list_NULL = Returns out st
        /\ time <$> alarm_list st = [100; 5]
        /\ waits (alarm_thread 0 st) = 100
        /\ waits (alarm_thread 0 st) <> 5 - 0).
Proof.
  split.
  - eexists _, _, _, _. split; [vm_compute; reflexivity|].
    split; [reflexivity|].
    split; [vm_compute; reflexivity|].
    split; [vm_compute; reflexivity|].
    split; [vm_compute; reflexivity|].
    split; [vm_compute; reflexivity|].
    vm_compute. congruence.
  - eexists _, _. split; [vm_compute; reflexivity|].
    split; [reflexivity|].
    split; [vm_compute; reflexivity|].
    vm_compute. congruence.
Qed.

(** C7, as the code has it: the alarm thread waits one second when the
    list is empty; when the first alarm of the list has not expired and
    the time left to its expiry is at most [INT_MAX], it waits that
    time; and it does not wait when the first alarm of the list has
    expired. *)
Theorem alarm_thread_waits now st :
  (alarm_list st = [] -> waits (alarm_thread now st) = 1)
  /\ (forall a link, alarm_list st = a :: link ->
        now < time a -> time a - now <= Int.INT_MAX ->
        sleep_time (alarm_thread now st) = time a - now
        /\ waits (alarm_thread now st) = time a - now)
  /\ (forall a link, alarm_list st = a :: link ->
        time a <= now ->
        sleep_time (alarm_thread now st) = 0
        /\ waits (alarm_thread now st) = 0).
Proof.
  unfold waits, alarm_thread. split; [|split].
  - by intros ->.
  - intros a link -> Hlt Hfit. simpl.
    destruct (Z.leb_spec (time a) now); [lia|].
    rewrite time_diff_int_small
      by (unfold Int.is_int, Int.INT_MIN, Int.INT_MAX in *; simpl in *; lia).
    split; [done|]. destruct (Z.gtb_spec (time a - now) 0); lia.
  - intros a link -> Hle. simpl.
    destruct (Z.leb_spec (time a) now); [done | lia].
Qed.

Lemma alarm_thread_waits_witness :
  let a := {| alarm_id := 1; seconds := 10; type := main_type; time := 10;
              message := [] |} in
  waits (alarm_thread 4 {| alarm_list := []; memory := ∅ |}) = 1
  /\ waits (alarm_thread 4 {| alarm_list := [a]; memory := ∅ |}) = 6
  /\ waits (alarm_thread 12 {| alarm_list := [a]; memory := ∅ |}) = 0.
Proof.
  intros a. split; [|split].
  - destruct (alarm_thread_waits 4 {| alarm_list := []; memory := ∅ |})
      as (Hempty & _ & _).
    exact (Hempty eq_refl).
  - destruct (alarm_thread_waits 4 {| alarm_list := [a]; memory := ∅ |})
      as (_ & Hahead & _).
    refine (proj2 (Hahead a [] eq_refl _ _)).
    + simpl. lia.
    + unfold Int.INT_MAX. simpl. lia.
  - destruct (alarm_thread_waits 12 {| alarm_list := [a]; memory := ∅ |})
      as (_ & _ & Hdue).
    refine (proj2 (Hdue a [] eq_refl _)).
    simpl. lia.
Defined.

(** The claim of C3 fails: an alarm that expires at 10 is taken off the
    list at time 0, ten seconds before it is due. *)
Lemma alarm_thread_takes_undue :
  let a := {| alarm_id := 1; seconds := 10; type := main_type; time := 10;
              message := [] |} in
  let st := {| alarm_list := [a]; memory := memory alarm_list_NULL |} in
  0 < time a
  /\ sleep_time (alarm_thread 0 st) = 10
  /\ alarm_list (unlocked (alarm_thread 0 st)) = []
  /\ unlocked (alarm_thread 0 st) <> st.
Proof.
  simpl. repeat split; try done. 
Qed.

(** C3, as the code has it: on a list that is not empty the alarm thread
    takes the first alarm off the list whether it is due or not, and
    leaves the others as they are; [sleep_time] is 0 when the alarm has
    expired and the time left to its expiry otherwise. *)
Theorem alarm_thread_takes_first now st a link :
  alarm_list st = a :: link ->
  alarm (alarm_thread now st) = Some a
  /\ unlocked (alarm_thread now st) = {| alarm_list := link; memory := memory st |}
  /\ (time a <= now -> sleep_time (alarm_thread now st) = 0)
  /\ (now < time a ->
      sleep_time (alarm_thread now st) = Int.time_diff_int (time a) now)
  /\ prints (alarm_thread now st) = [Expired (seconds a) (message a)].
Proof.
  intros H. unfold prints, alarm_thread. rewrite H. simpl.
  repeat split; intros; destruct (Z.leb_spec (time a) now); done || lia.
Qed.

Lemma alarm_thread_takes_first_witness :
  let a := {| alarm_id := 1; seconds := 10; type := main_type; time := 10;
              message := [] |} in
  let b := {| alarm_id := 2; seconds := 20; type := main_type; time := 20;
              message := [] |} in
  let st := {| alarm_list := [a; b]; memory := ∅ |} in
  alarm (alarm_thread 0 st) = Some a
  /\ unlocked (alarm_thread 0 st) = {| alarm_list := [b]; memory := ∅ |}.
Proof.
  intros a b st.
  destruct (alarm_thread_takes_first 0 st a [b] eq_refl) as (H1 & H2 & _).
  split; [exact H1 | exact H2].
Defined.

(** ** Writes that stay within bounds *)

Lemma strcpy_returns dst src m b :
  m !! dst = Some b ->
  (length src < capacity b)%nat ->
  strcpy dst src m = inr (<[dst := {| capacity := capacity b; text := src |}]> m).
Proof.
  intros Hb Hlen. unfold strcpy. rewrite Hb.
  destruct (Nat.leb_spec (capacity b) (length src)); [lia | done].
Qed.

Lemma store_nul_returns dst i m b :
  m !! dst = Some b ->
  (i < capacity b)%nat ->
  store_nul dst i m
  = inr (<[dst := {| capacity := capacity b; text := take i (text b) |}]> m).
Proof.
  intros Hb Hlen. unfold store_nul. rewrite Hb.
  destruct (Nat.leb_spec (capacity b) i); [lia | done].
Qed.

Lemma strcpy_message_returns msg :
  (length msg < sizeof_message)%nat -> strcpy_message msg = inr msg.
Proof.
  intros Hlen. unfold strcpy_message.
  destruct (Nat.leb_spec sizeof_message (length msg)); [lia | done].
Qed.

(** ** Change_Alarm and Cancel_Alarm *)

(** C6: when no alarm on the list has the id, [Change_Alarm] prints that
    it could not find the alarm and [Cancel_Alarm] that the alarm does
    not exist, and each returns with the state it was called in. *)
Theorem unknown_id_reported now id ty src secs msg st :
  Forall (fun a => alarm_id a <> id) (alarm_list st) ->
  memory st !! ty = Some src ->
  Change_Alarm now id ty secs msg st
  = Returns [Changing_alarm id (text src) secs msg; Could_not_find_alarm id] st
  /\ Cancel_Alarm id st
     = Returns [Canceling_alarm id; Alarm_does_not_exist id] st.
Proof.
  intros Hno Hty. split.
  - unfold Change_Alarm. rewrite Hty.
    by rewrite (Change_Alarm_loop_None _ _ _ _ Hno).
  - unfold Cancel_Alarm.
    by rewrite (proj2 (Cancel_Alarm_loop_None id (alarm_list st)) Hno).
Qed.

Lemma unknown_id_reported_witness :
  let a := {| alarm_id := 1; seconds := 10; type := main_type; time := 10;
              message := [] |} in
  let st := {| alarm_list := [a]; memory := memory alarm_list_NULL |} in
  Change_Alarm 3 7 main_type 5 [] st
  = Returns [Changing_alarm 7 [] 5 []; Could_not_find_alarm 7] st
  /\ Cancel_Alarm 7 st
     = Returns [Canceling_alarm 7; Alarm_does_not_exist 7] st.
Proof.
  intros a st.
  apply (unknown_id_reported 3 7 main_type
           {| capacity := sizeof_main_type; text := [] |} 5 [] st).
  - constructor; [simpl; lia | constructor].
  - reflexivity.
Defined.

(** What [Change_Alarm] returns when it finds the alarm and every write
    stays within bounds. *)
Lemma Change_Alarm_returns now id ty secs msg st before a after src dst :
  alarm_list st = before ++ a :: after ->
  Forall (fun b => alarm_id b <> id) before ->
  alarm_id a = id ->
  memory st !! ty = Some src ->
  memory st !! type a = Some dst ->
  (length (text src) < capacity dst)%nat ->
  (sizeof_type - 1 < capacity dst)%nat ->
  (length msg < sizeof_message)%nat ->
  Change_Alarm now id ty secs msg st
  = Returns [Changing_alarm id (text src) secs msg]
      {| alarm_list :=
           before
           ++ {| alarm_id := id; seconds := secs; type := type a;
                 time := Int.time_plus now secs; message := msg |}
           :: after;
         memory :=
           <[type a := {| capacity := capacity dst;
                          text := take (sizeof_type - 1) (text src) |}]>
             (memory st) |}.
Proof.
  intros Hl Hbefore Ha Hsrc Hdst Hty Hnul Hmsg.
  unfold Change_Alarm. rewrite Hsrc, Hl.
  erewrite Change_Alarm_loop_found; [reflexivity | done | done |].
  unfold Change_Alarm_update.
  rewrite (strcpy_returns _ _ _ dst Hdst Hty).
  erewrite store_nul_returns; [|apply lookup_insert_eq|exact Hnul].
  rewrite (strcpy_message_returns _ Hmsg).
  rewrite insert_insert_eq, Ha.
  rewrite (take_ge msg) by (unfold sizeof_message in *; lia).
  reflexivity.
Qed.

(** C5, as the code has it: [Change_Alarm] overwrites the seconds, the
    expiry (the time of the call plus the new seconds) and the message of
    the first alarm with the id, writes the new type, here of at most
    seven characters, into the array the alarm's [type] points to, and
    leaves every alarm at its place in the list. *)
Theorem Change_Alarm_in_place now id ty secs msg st before a after src dst :
  alarm_list st = before ++ a :: after ->
  Forall (fun b => alarm_id b <> id) before ->
  alarm_id a = id ->
  memory st !! ty = Some src ->
  memory st !! type a = Some dst ->
  (length (text src) < sizeof_type)%nat ->
  (sizeof_type <= capacity dst)%nat ->
  (length msg < sizeof_message)%nat ->
  Change_Alarm now id ty secs msg st
  = Returns [Changing_alarm id (text src) secs msg]
      {| alarm_list :=
           before
           ++ {| alarm_id := id; seconds := secs; type := type a;
                 time := Int.time_plus now secs; message := msg |}
           :: after;
         memory :=
           <[type a := {| capacity := capacity dst; text := text src |}]>
             (memory st) |}.
Proof.
  intros Hl Hbefore Ha Hsrc Hdst Hty Hcap Hmsg.
  rewrite (Change_Alarm_returns now id ty secs msg st before a after src dst)
    by (try done; unfold sizeof_type in *; lia).
  rewrite (take_ge (text src)) by (unfold sizeof_type in *; lia).
  reflexivity.
Qed.

Lemma Change_Alarm_in_place_witness :
  let a1 := {| alarm_id := 1; seconds := 100; type := main_type; time := 100;
               message := list_ascii_of_string "one" |} in
  let a2 := {| alarm_id := 2; seconds := 200; type := main_type; time := 200;
               message := list_ascii_of_string "two" |} in
  let ty := list_ascii_of_string "Urgent" in
  let m := {[ main_type := {| capacity := sizeof_main_type; text := ty |} ]} in
  Change_Alarm 0 2 main_type 0 (list_ascii_of_string "now")
    {| alarm_list := [a1; a2]; memory := m |}
  = Returns [Changing_alarm 2 ty 0 (list_ascii_of_string "now")]
      {| alarm_list :=
           [a1; {| alarm_id := 2; seconds := 0; type := main_type;
                   time := Int.time_plus 0 0;
                   message := list_ascii_of_string "now" |}];
         memory :=
           <[main_type := {| capacity := sizeof_main_type; text := ty |}]> m |}.
Proof.
  intros a1 a2 ty m.
  apply (Change_Alarm_in_place 0 2 main_type 0 (list_ascii_of_string "now")
           {| alarm_list := [a1; a2]; memory := m |} [a1] a2 []
           {| capacity := sizeof_main_type; text := ty |}
           {| capacity := sizeof_main_type; text := ty |}).
  - reflexivity.
  - constructor; [simpl; lia | constructor].
  - reflexivity.
  - reflexivity.
  - reflexivity.
  - simpl. unfold sizeof_type. lia.
  - simpl. unfold sizeof_main_type, sizeof_type. lia.
  - simpl. unfold sizeof_message. lia.
Defined.

(** A type of more than seven characters is cut by the NUL that line 203
    stores at [sizeof (alarm->type) - 1], in the array that every alarm
    started through [main] shares. *)
Example Change_Alarm_cuts_type :
  exists out st,
    run (run_100_200
         ++ [Main (at_time 0)
               (Change_Alarm_line 2 (list_ascii_of_string "Reminder") 0
                  (list_ascii_of_string "now"))])
      alarm_list_NULL
    = Returns out st
    /\ text <$> memory st !! main_type = Some (list_ascii_of_string "Reminde")
    /\ type <$> alarm_list st = [main_type; main_type].
Proof.
  eexists _, _. split; [vm_compute; reflexivity|]. by split.
Qed.

(** ** What a turn does to the list *)

Lemma bind_Returns {A B : Type} (c : outcome A) (k : A -> outcome B) out b :
  c ≫= k = Returns out b ->
  exists out1 a out2,
    c = Returns out1 a /\ k a = Returns out2 b /\ out = out1 ++ out2.
Proof.
  unfold mbind, outcome_bind. destruct c as [out1 a|out1 u|out1]; try done.
  destruct (k a) as [out2 b'|out2 u|out2] eqn:E; try done.
  intros H. inversion H; subst. by exists out1, a, out2.
Qed.

Lemma sscanf_type_message_inv ty msg st out message st' :
  sscanf_type_message ty msg st = Returns out (message, st') ->
  alarm_list st' = alarm_list st /\ message = take 128 msg.
Proof.
  unfold sscanf_type_message. intros H.
  apply bind_Returns in H as (out1 & m & out2 & _ & H & _).
  destruct (_ <=? _)%nat; [done|]. by inversion H.
Qed.

Lemma Change_Alarm_inv now id ty secs msg st out st' :
  Change_Alarm now id ty secs msg st = Returns out st' ->
  st' = st
  \/ exists before a a' after,
       alarm_list st = before ++ a :: after
       /\ alarm_list st' = before ++ a' :: after
       /\ alarm_id a' = alarm_id a
       /\ time a' = Int.time_plus now secs.
Proof.
  unfold Change_Alarm. destruct (memory st !! ty) as [src|]; [|done].
  destruct (Change_Alarm_loop _ _ _ _) as [u|[[l m]|]] eqn:E; [done| |].
  - intros H. inversion H; subst. right.
    apply Change_Alarm_loop_Some in E
      as (before & a & a' & after & Hl & -> & _ & Hu).
    apply Change_Alarm_update_id in Hu as [Hid Ht].
    by exists before, a, a', after.
  - intros H. inversion H. by left.
Qed.

Lemma Cancel_Alarm_inv id st out st' :
  Cancel_Alarm id st = Returns out st' ->
  st' = st
  \/ exists before a after,
       alarm_list st = before ++ a :: after
       /\ alarm_list st' = before ++ after.
Proof.
  unfold Cancel_Alarm. destruct (Cancel_Alarm_loop _ _) as [l|] eqn:E.
  - intros H. inversion H; subst. right.
    apply Cancel_Alarm_loop_Some in E as (before & a & after & Hl & -> & _).
    by exists before, a, after.
  - intros H. inversion H. by left.
Qed.

Lemma View_Alarms_inv now st out st' :
  View_Alarms now st = Returns out st' -> st' = st.
Proof.
  unfold View_Alarms. destruct (alarm_list st).
  - intros H. by inversion H.
  - destruct (View_Alarms_loop _ _ _) as [printed [u|]]; [done|].
    intros H. by inversion H.
Qed.

Lemma main_insert_split a l :
  exists before after,
    l = before ++ after
    /\ main_insert a l = before ++ a :: after
    /\ Forall (fun b => time b < time a) before
    /\ match after with
       | [] => True
       | n :: _ => time a <= time n
       end.
Proof.
  induction l as [|n link IH]; simpl.
  - by exists [], [].
  - destruct (Z.geb_spec (time n) (time a)) as [Hge|Hlt].
    + exists [], (n :: link). repeat split; try done. 
    + destruct IH as (before & after & -> & -> & Hb & Ha).
      exists (n :: before), after. repeat split; try done.
      constructor; [lia | done].
Qed.

Lemma step_effect ev st out st' :
  step ev st = Returns out st' -> effect st st' ev.
Proof.
  destruct ev as [e c|now]; simpl.
  - unfold main. destruct (main_malloc e); simpl; [|done].
    destruct c as [id ty secs msg|id ty secs msg|id| |secs msg|[ty|]].
    + intros H.
      apply bind_Returns in H as (out1 & [message st1] & out2 & Hs & H & _).
      apply sscanf_type_message_inv in Hs as [Hl _].
      apply Start_Alarm_inv in H as (a & Ha & Ht & Hl' & _).
      rewrite Hl in Hl'. by eapply effect_Start.
    + intros H.
      apply bind_Returns in H as (out1 & [message st1] & out2 & Hs & H & _).
      apply sscanf_type_message_inv in Hs as [Hl _].
      apply Change_Alarm_inv in H
        as [->|(before & a & a' & after & H1 & H2 & H3 & H4)].
      * by apply effect_none.
      * rewrite Hl in H1. by eapply effect_Change.
    + intros H. apply Cancel_Alarm_inv in H as [->|(before & a & after & H1 & H2)].
      * by apply effect_none.
      * by eapply effect_Cancel.
    + intros H. apply View_Alarms_inv in H as ->. by apply effect_none.
    + intros H.
      apply bind_Returns in H as (out1 & stored & out2 & _ & H & _).
      inversion H; subst; clear H.
      match goal with
      | |- context [main_insert ?a ?l] =>
          destruct (main_insert_split a l) as (before & after & H1 & H2 & H3 & H4)
      end.
      eapply effect_Timed; [| |exact H1|exact H2|exact H3|exact H4]; done.
    + intros H.
      apply bind_Returns in H as (out1 & m & out2 & _ & H & _).
      inversion H; subst. by apply effect_none.
    + intros H. inversion H; subst. by apply effect_none.
  - unfold alarm_thread. destruct (alarm_list st) as [|a link] eqn:E; simpl.
    + intros H. inversion H; subst. by apply effect_none.
    + intros H. inversion H; subst. simpl. by eapply effect_thread.
Qed.

(** ** No id twice *)

Lemma live_false id st : live id st = false -> id ∉ ids st.
Proof.
  unfold live, ids. induction (alarm_list st) as [|a l IH]; simpl.
  - intros _. apply not_elem_of_nil.
  - destruct (Z.eqb_spec (alarm_id a) id) as [Heq|Hne]; simpl; [done|].
    intros H. apply not_elem_of_cons. split; [done | by apply IH].
Qed.

Lemma live_true id l :
  existsb (fun a => alarm_id a =? id) l = true -> id ∈ alarm_id <$> l.
Proof.
  induction l as [|a l IH]; cbn [existsb]; [done|].
  rewrite fmap_cons, elem_of_cons.
  destruct (Z.eqb_spec (alarm_id a) id) as [Heq|Hne]; [by left|].
  intros H. right. by apply IH.
Qed.

Lemma Start_Alarm_scan_ids id l x :
  x ∈ alarm_id <$> Start_Alarm_scan id l -> x ∈ alarm_id <$> l.
Proof.
  intros (a & -> & Ha)%list_elem_of_fmap.
  apply list_elem_of_fmap_2. by eapply Start_Alarm_scan_elem.
Qed.

Lemma Start_Alarm_scan_NoDup id l :
  NoDup (alarm_id <$> l) -> NoDup (alarm_id <$> Start_Alarm_scan id l).
Proof.
  destruct (Start_Alarm_scan_suffix id l) as (skipped & Heq & _).
  rewrite Heq at 1. rewrite fmap_app, NoDup_app. by intros (_ & _ & H).
Qed.

Lemma effect_NoDup ev st st' :
  effect st st' ev ->
  match created_id ev with
  | Some id => id ∉ ids st
  | None => True
  end ->
  NoDup (ids st) -> NoDup (ids st').
Proof.
  unfold ids.
  intros Heff. effect_cases Heff.
  - intros Hfresh Hnd. rewrite Hl', fmap_cons, Ha.
    apply NoDup_cons. split.
    + intros Hin. apply Hfresh. by eapply Start_Alarm_scan_ids.
    + by apply Start_Alarm_scan_NoDup.
  - intros _. by rewrite Hl, Hl', !fmap_app, !fmap_cons, Hid.
  - intros _. rewrite Hl, Hl', !fmap_app, fmap_cons, !NoDup_app, NoDup_cons.
    intros (H1 & H2 & H3 & H4). repeat split; try done.
    intros x Hx Hx'. apply (H2 x Hx). by apply elem_of_cons; right.
  - rewrite Hl, Hl', !fmap_app, fmap_cons, !NoDup_app, NoDup_cons, <- Ha.
    intros Hfresh (H1 & H2 & H3). repeat split; try done.
    + intros x Hx [->|Hx']%elem_of_cons.
      * apply Hfresh, elem_of_app. by left.
      * by apply (H2 x).
    + intros Hin. apply Hfresh, elem_of_app. by right.
  - intros _. rewrite Hl, fmap_cons, NoDup_cons. by intros [_ H].
  - intros _. by rewrite Hl'.
Qed.

Lemma run_NoDup evs st out st' :
  creates_unused_ids evs st = true ->
  run evs st = Returns out st' ->
  NoDup (ids st) -> NoDup (ids st').
Proof.
  revert st out. induction evs as [|ev evs IH]; simpl; intros st out Hfresh Hrun Hnd.
  - by inversion Hrun; subst.
  - apply bind_Returns in Hrun as (out1 & st1 & out2 & Hstep & Hrun & _).
    apply andb_prop in Hfresh as [Hid Hrest]. rewrite Hstep in Hrest.
    apply (IH st1 out2 Hrest Hrun).
    apply (effect_NoDup ev st st1); [by eapply step_effect | | done].
    destruct (created_id ev) as [id|]; [|done].
    apply live_false. by apply negb_true_iff.
Qed.

(** The scan never passes an alarm that has the id it is given: started
    under an id that is on the list, the new alarm joins the old one. *)
Lemma Start_Alarm_scan_live id l :
  existsb (fun a => alarm_id a =? id) l = true ->
  id ∈ alarm_id <$> Start_Alarm_scan id l.
Proof.
  induction l as [|n link IH]; cbn [existsb Start_Alarm_scan]; [done|].
  destruct (Z.geb_spec (alarm_id n) id) as [Hge|Hlt].
  - intros Hlive. by apply (live_true id (n :: link)).
  - destruct (Z.eqb_spec (alarm_id n) id); [lia|]. apply IH.
Qed.

Lemma Start_Alarm_live_id malloc_ok now id ty secs msg st out st' :
  live id st = true ->
  Start_Alarm malloc_ok now id ty secs msg st = Returns out st' ->
  ~ NoDup (ids st').
Proof.
  intros Hlive (a & Ha & _ & Hl & _)%Start_Alarm_inv.
  unfold ids. rewrite Hl, fmap_cons, Ha, NoDup_cons. intros [Hnotin _].
  by apply Hnotin, Start_Alarm_scan_live.
Qed.

(** The claim of C1 fails: two [Start_Alarm] commands with the id 2 leave
    two alarms with the id 2 on the list. *)
Lemma Start_Alarm_twice_same_id :
  exists out st,
    run run_2_2 alarm_list_NULL = Returns out st
    /\ ids st = [2; 2]
    /\ ~ NoDup (ids st).
Proof.
  eexists _, _. split; [vm_compute; reflexivity|].
  split; [reflexivity|].
  unfold ids. simpl. rewrite NoDup_cons. intros [Hin _].
  apply Hin. by apply list_elem_of_singleton.
Qed.

(** C1, as the code has it: along every run from the empty list in which
    no alarm is created under an id that is on the list at that moment,
    no two alarms on the list have the same id.  [Start_Alarm] does not
    look for the id it is given. *)
Theorem ids_NoDup evs out st :
  creates_unused_ids evs alarm_list_NULL = true ->
  run evs alarm_list_NULL = Returns out st ->
  NoDup (ids st).
Proof.
  intros Hfresh Hrun.
  apply (run_NoDup evs alarm_list_NULL out st Hfresh Hrun).
  apply NoDup_nil_2.
Qed.

Lemma ids_NoDup_witness :
  exists out st,
    run run_1_3 alarm_list_NULL = Returns out st
    /\ ids st = [1; 3]
    /\ NoDup (ids st).
Proof.
  eexists _, _. split; [vm_compute; reflexivity|].
  split; [reflexivity|].
  eapply (ids_NoDup run_1_3); vm_compute; reflexivity.
Defined.

(** ** The order of the list along a run *)

Section Ascending.

Variable key : alarm_t -> Z.

Lemma ascending_cons a l :
  ascending key (a :: l)
  <-> Forall (fun b => key a <= key b) l /\ ascending key l.
Proof. apply StronglySorted_cons. Qed.

Lemma ascending_remove before a after :
  ascending key (before ++ a :: after) -> ascending key (before ++ after).
Proof.
  unfold ascending. rewrite !StronglySorted_app, StronglySorted_cons.
  intros (H1 & H2 & H3 & H4). repeat split; try done.
  intros x y Hx Hy. apply H1; [done|]. by apply elem_of_cons; right.
Qed.

Lemma ascending_replace before a a' after :
  key a' = key a ->
  ascending key (before ++ a :: after) ->
  ascending key (before ++ a' :: after).
Proof.
  unfold ascending. rewrite !StronglySorted_app, !StronglySorted_cons.
  intros Hk (H1 & H2 & H3 & H4). rewrite Hk. repeat split; try done.
  intros x y Hx [->|Hy]%elem_of_cons.
  - rewrite Hk. apply H1; [done|]. by apply elem_of_cons; left.
  - apply H1; [done|]. by apply elem_of_cons; right.
Qed.

(** In an ascending list every key is at least the first. *)
Lemma ascending_from_head bound l :
  ascending key l ->
  match l with
  | [] => True
  | n :: _ => bound <= key n
  end ->
  Forall (fun b => bound <= key b) l.
Proof.
  destruct l as [|n link]; [constructor|].
  intros [Hall _]%ascending_cons Hn. constructor; [done|].
  eapply Forall_impl; [exact Hall|]. simpl. intros b Hb. lia.
Qed.

Lemma ascending_insert before a after :
  ascending key (before ++ after) ->
  Forall (fun b => key b < key a) before ->
  match after with
  | [] => True
  | n :: _ => key a <= key n
  end ->
  ascending key (before ++ a :: after).
Proof.
  intros Hs Hb Ha.
  assert (Hafter : Forall (fun b => key a <= key b) after).
  { apply ascending_from_head; [|done].
    by eapply StronglySorted_app_1_r. }
  unfold ascending in *. revert Hs.
  rewrite !StronglySorted_app, StronglySorted_cons.
  intros (H1 & H2 & H3). repeat split; try done.
  intros x y Hx [->|Hy]%elem_of_cons.
  - rewrite Forall_forall in Hb. specialize (Hb x Hx). lia.
  - by apply H1.
Qed.

End Ascending.

Lemma Start_Alarm_scan_first id l :
  match Start_Alarm_scan id l with
  | [] => True
  | n :: _ => id <= alarm_id n
  end.
Proof.
  induction l as [|n link IH]; simpl; [done|].
  destruct (Z.geb_spec (alarm_id n) id); [lia | done].
Qed.

Lemma Start_Alarm_scan_ascending a l :
  ascending alarm_id l ->
  ascending alarm_id (a :: Start_Alarm_scan (alarm_id a) l).
Proof.
  intros Hs. destruct (Start_Alarm_scan_suffix (alarm_id a) l) as (skipped & Heq & _).
  assert (Hscan : ascending alarm_id (Start_Alarm_scan (alarm_id a) l)).
  { rewrite Heq in Hs. by eapply StronglySorted_app_1_r. }
  apply ascending_cons. split; [|done].
  apply ascending_from_head; [done|]. apply Start_Alarm_scan_first.
Qed.

Lemma main_insert_ascending a l :
  ascending time l -> ascending time (main_insert a l).
Proof.
  intros Hs. destruct (main_insert_split a l) as (before & after & -> & -> & Hb & Ha).
  by apply ascending_insert.
Qed.

Lemma effect_ascending_id ev st st' :
  effect st st' ev -> by_id ev = true ->
  ascending alarm_id (alarm_list st) -> ascending alarm_id (alarm_list st').
Proof.
  intros Heff. effect_cases Heff; intros Hby Hs.
  - rewrite Hl', <- Ha. by apply Start_Alarm_scan_ascending.
  - rewrite Hl'. rewrite Hl in Hs. by eapply ascending_replace.
  - rewrite Hl'. rewrite Hl in Hs. by eapply ascending_remove.
  - done.
  - rewrite Hl in Hs. by apply ascending_cons in Hs as [_ Hs].
  - by rewrite Hl'.
Qed.

Lemma effect_ascending_time ev st st' :
  effect st st' ev -> by_time ev = true ->
  ascending time (alarm_list st) -> ascending time (alarm_list st').
Proof.
  intros Heff. effect_cases Heff; intros Hby Hs.
  - done.
  - done.
  - rewrite Hl'. rewrite Hl in Hs. by eapply ascending_remove.
  - rewrite Hl'. rewrite Hl in Hs. by apply ascending_insert.
  - rewrite Hl in Hs. by apply ascending_cons in Hs as [_ Hs].
  - by rewrite Hl'.
Qed.

Lemma run_ascending (key : alarm_t -> Z) (kind : event -> bool) :
  (forall ev st st', effect st st' ev -> kind ev = true ->
     ascending key (alarm_list st) -> ascending key (alarm_list st')) ->
  forall evs st out st',
    forallb kind evs = true ->
    run evs st = Returns out st' ->
    ascending key (alarm_list st) -> ascending key (alarm_list st').
Proof.
  intros Hstep. induction evs as [|ev evs IH]; simpl; intros st out st' Hk Hrun Hs.
  - by inversion Hrun; subst.
  - apply bind_Returns in Hrun as (out1 & st1 & out2 & H1 & Hrun & _).
    apply andb_prop in Hk as [Hev Hk].
    apply (IH st1 out2 st' Hk Hrun).
    apply (Hstep ev st st1); [by eapply step_effect | done | done].
Qed.

(** The claim of C2 fails: alarm 2, due at 5, is started before alarm 1,
    due at 100, and stands behind it on the list. *)
Lemma Start_Alarm_not_by_expiry :
  exists out st,
    run run_1_2 alarm_list_NULL = Returns out st
    /\ ids st = [1; 2]
    /\ time <$> alarm_list st = [100; 5]
    /\ ~ in_scheduling_order (alarm_list st).
Proof.
  eexists _, _. split; [vm_compute; reflexivity|].
  split; [reflexivity|]. split; [reflexivity|].
  unfold in_scheduling_order. simpl. intros Hs.
  apply Sorted_inv in Hs as [_ Hhd]. apply HdRel_inv in Hhd.
  unfold scheduling_order in Hhd. simpl in Hhd. vm_compute in Hhd.
  destruct Hhd as [Hlt|[Heq _]]; discriminate.
Qed.

(** C2, as the code has it: along every run from the empty list made of
    [Start_Alarm], [Change_Alarm], [Cancel_Alarm] and [View_Alarms]
    commands and turns of the alarm thread, the ids do not decrease along
    the list; the expiry times do not decrease along it in the runs that
    have requests by seconds and message in the place of [Start_Alarm]
    and [Change_Alarm]. *)
Theorem list_order evs out st :
  run evs alarm_list_NULL = Returns out st ->
  (forallb by_id evs = true -> ascending alarm_id (alarm_list st))
  /\ (forallb by_time evs = true -> ascending time (alarm_list st)).
Proof.
  intros Hrun. split; intros Hkind.
  - apply (run_ascending alarm_id by_id effect_ascending_id
             evs alarm_list_NULL out st Hkind Hrun).
    constructor.
  - apply (run_ascending time by_time effect_ascending_time
             evs alarm_list_NULL out st Hkind Hrun).
    constructor.
Qed.

Lemma list_order_witness :
  exists out st out' st',
    run run_1_3 alarm_list_NULL = Returns out st
    /\ ascending alarm_id (alarm_list st)
    /\ run run_timed alarm_list_NULL = Returns out' st'
    /\ time <$> alarm_list st' = [7; 30]
    /\ ascending time (alarm_list st').
Proof.
  eexists _, _, _, _. split; [vm_compute; reflexivity|].
  split.
  { eapply (list_order run_1_3); vm_compute; reflexivity. }
  split; [vm_compute; reflexivity|].
  split; [reflexivity|].
  eapply (list_order run_timed); vm_compute; reflexivity.
Defined.

(** ** Start_Alarm twice *)

(** The claim of C4 fails: the second [Start_Alarm] with the id 2
    returns as the first did, its alarm is the head of the list, and the
    alarm of the first call stands behind it. *)
Lemma Start_Alarm_twice_both_stored :
  exists st,
    run run_2_2 alarm_list_NULL
    = Returns [Starting_Alarm 2; Starting_Alarm 2] st
    /\ ids st = [2; 2]
    /\ seconds <$> alarm_list st = [100; 200]
    /\ message <$> alarm_list st
       = [list_ascii_of_string "second"; list_ascii_of_string "first"]
    /\ length (filter (fun a => alarm_id a = 2) (alarm_list st)) <> 1%nat.
Proof.
  eexists. split; [vm_compute; reflexivity|].
  repeat split; try reflexivity. vm_compute. discriminate.
Qed.

(** C4, as the code has it: of two [Start_Alarm] calls in succession
    with the same id the second returns as the first does, and the list
    then begins with the alarm of the second call followed by the alarm
    of the first. *)
Theorem Start_Alarm_twice now1 now2 id ty1 ty2 secs1 secs2 msg1 msg2 st :
  (length msg1 < sizeof_message)%nat ->
  (length msg2 < sizeof_message)%nat ->
  exists st1 st2,
    Start_Alarm true now1 id ty1 secs1 msg1 st = Returns [Starting_Alarm id] st1
    /\ Start_Alarm true now2 id ty2 secs2 msg2 st1 = Returns [Starting_Alarm id] st2
    /\ alarm_list st2
       = {| alarm_id := id; seconds := secs2; type := ty2;
            time := Int.time_plus now2 secs2; message := msg2 |}
         :: {| alarm_id := id; seconds := secs1; type := ty1;
               time := Int.time_plus now1 secs1; message := msg1 |}
         :: Start_Alarm_scan id (alarm_list st).
Proof.
  intros H1 H2. eexists _, _.
  split; [by apply Start_Alarm_returns|].
  split; [by apply Start_Alarm_returns|].
  cbn [alarm_list]. f_equal. apply Start_Alarm_scan_head. cbn [alarm_id]. lia.
Qed.

Lemma Start_Alarm_twice_witness :
  exists st1 st2,
    Start_Alarm true 0 2 main_type 200 (list_ascii_of_string "first")
      alarm_list_NULL = Returns [Starting_Alarm 2] st1
    /\ Start_Alarm true 0 2 main_type 100 (list_ascii_of_string "second") st1
       = Returns [Starting_Alarm 2] st2
    /\ ids st2 = [2; 2].
Proof.
  destruct (Start_Alarm_twice 0 0 2 main_type main_type 200 100
              (list_ascii_of_string "first") (list_ascii_of_string "second")
              alarm_list_NULL)
    as (st1 & st2 & H1 & H2 & H3).
  - simpl. unfold sizeof_message. lia.
  - simpl. unfold sizeof_message. lia.
  - exists st1, st2. split; [exact H1|]. split; [exact H2|].
    unfold ids. rewrite H3. reflexivity.
Defined.

(** ** Change_Alarm and the order by expiry *)

(** The claim of C5 fails: the list holds alarm 1, due at 100, before
    alarm 2, due at 200; [Change_Alarm] sets alarm 2 to expire at once and
    leaves it behind alarm 1. *)
Lemma Change_Alarm_keeps_position :
  exists out st out' st',
    run run_100_200 alarm_list_NULL = Returns out st
    /\ time <$> alarm_list st = [100; 200]
    /\ in_scheduling_order (alarm_list st)
    /\ main (at_time 0) (Change_Alarm_line 2 (list_ascii_of_string "C") 0
                           (list_ascii_of_string "now")) st
       = Returns out' st'
    /\ ids st' = [1; 2]
    /\ time <$> alarm_list st' = [100; 0]
    /\ ~ in_scheduling_order (alarm_list st').
Proof.
  eexists _, _, _, _. split; [vm_compute; reflexivity|].
  split; [reflexivity|]. split.
  { repeat constructor. }
  split; [vm_compute; reflexivity|].
  split; [reflexivity|]. split; [reflexivity|].
  unfold in_scheduling_order. simpl. intros Hs.
  apply Sorted_inv in Hs as [_ Hhd]. apply HdRel_inv in Hhd.
  unfold scheduling_order in Hhd. simpl in Hhd.
  destruct Hhd as [Hlt|[Heq _]]; discriminate.
Qed.

(** ** Expiry times along a run *)

(** When the clock does not go back, no alarm on the list expires more
    than [INT_MAX] seconds after the present turn: the time left to an
    expiry fits the [int] that [sleep_time] is. *)
Lemma effect_time_fits ev st st' t :
  effect st st' ev ->
  0 <= t <= clock ev ->
  clock ev <= Int.TIME_MAX - Int.INT_MAX ->
  match requested ev with
  | Some secs => Int.is_int secs
  | None => True
  end ->
  Forall (fun a => time a <= t + Int.INT_MAX) (alarm_list st) ->
  Forall (fun a => time a <= clock ev + Int.INT_MAX) (alarm_list st').
Proof.
  intros Heff Hclock Hmax Hsecs Hall.
  assert (Hold : Forall (fun a => time a <= clock ev + Int.INT_MAX) (alarm_list st)).
  { eapply Forall_impl; [exact Hall|]. simpl. intros a Ha. lia. }
  assert (Hnew : forall secs, Int.is_int secs ->
            Int.time_plus (clock ev) secs <= clock ev + Int.INT_MAX).
  { intros secs Hint. rewrite time_plus_small.
    - unfold Int.is_int in Hint. lia.
    - unfold Int.is_int, Int.is_time_t, Int.INT_MIN, Int.INT_MAX,
        Int.TIME_MIN, Int.TIME_MAX in *. simpl in *. lia. }
  clear Hall Hclock Hmax. revert Hsecs Hold Hnew. effect_cases Heff.
  - intros Hsecs Hold Hnew. rewrite Hl'. apply Forall_cons. split.
    + rewrite Ht. by apply Hnew.
    + destruct (Start_Alarm_scan_suffix id (alarm_list st)) as (skipped & Heq & _).
      rewrite Heq in Hold. by apply Forall_app in Hold as [_ Hold].
  - intros Hsecs. rewrite Hl, Hl', !Forall_app, !Forall_cons.
    intros (H1 & _ & H2) Hnew. repeat split; try done.
    rewrite Ht. by apply Hnew.
  - intros _. rewrite Hl, Hl', !Forall_app, Forall_cons.
    by intros (H1 & _ & H2) _.
  - intros Hsecs. rewrite Hl, Hl', !Forall_app, Forall_cons.
    intros (H1 & H2) Hnew. repeat split; try done.
    rewrite Ht. by apply Hnew.
  - intros _. rewrite Hl, Forall_cons. by intros [_ H] _.
  - intros _. by rewrite Hl'.
Qed.

Lemma run_time_fits evs t st out st' :
  0 <= t ->
  well_timed t evs ->
  run evs st = Returns out st' ->
  Forall (fun a => time a <= t + Int.INT_MAX) (alarm_list st) ->
  Forall (fun a => time a <= last_clock t evs + Int.INT_MAX) (alarm_list st').
Proof.
  revert t st out. induction evs as [|ev evs IH]; simpl; intros t st out Ht Hw Hrun Hall.
  - by inversion Hrun; subst.
  - destruct Hw as (Hle & Hmax & Hsecs & Hw).
    apply bind_Returns in Hrun as (out1 & st1 & out2 & Hstep & Hrun & _).
    apply (IH (clock ev) st1 out2); [lia | done | done |].
    apply (effect_time_fits ev st st1 t); try done.
    by eapply step_effect.
Qed.

(** In a state reached while the clock did not go back, the alarm thread
    waits for the time left to the expiry of the first alarm. *)
Lemma alarm_thread_waits_along_run evs out st t a link :
  well_timed 0 evs ->
  run evs alarm_list_NULL = Returns out st ->
  last_clock 0 evs <= t ->
  alarm_list st = a :: link ->
  t < time a ->
  waits (alarm_thread t st) = time a - t.
Proof.
  intros Hw Hrun Hlast Hl Hlt.
  assert (Hfit : Forall (fun b => time b <= last_clock 0 evs + Int.INT_MAX)
                   (alarm_list st)).
  { by apply (run_time_fits evs 0 alarm_list_NULL out st). }
  rewrite Hl in Hfit. apply Forall_cons in Hfit as [Ha _].
  unfold waits, alarm_thread. rewrite Hl. simpl.
  destruct (Z.leb_spec (time a) t); [lia|].
  rewrite time_diff_int_small
    by (unfold Int.is_int, Int.INT_MIN, Int.INT_MAX in *; simpl in *; lia).
  destruct (Z.gtb_spec (time a - t) 0); lia.
Qed.

Example alarm_thread_waits_after_run_1_3 :
  exists out st a link,
    run run_1_3 alarm_list_NULL = Returns out st
    /\ alarm_list st = a :: link
    /\ time a = 13
    /\ waits (alarm_thread 5 st) = time a - 5.
Proof.
  eexists _, _, _, _. split; [vm_compute; reflexivity|].
  split; [reflexivity|]. split; [reflexivity|].
  eapply (alarm_thread_waits_along_run run_1_3).
  - cbv. repeat split; discriminate.
  - vm_compute. reflexivity.
  - simpl. lia.
  - reflexivity.
  - simpl. lia.
Qed.

(** * Further properties *)

(** ** trimwhitespace *)

Lemma trim_leading_split str :
  exists lead,
    str = lead ++ trim_leading str
    /\ blank lead
    /\ forall c, head (trim_leading str) = Some c -> isspace c = false.
Proof.
  induction str as [|c rest IH]; cbn [trim_leading].
  - exists []. repeat split; [constructor | done].
  - destruct (isspace c) eqn:E.
    + destruct IH as (lead & Heq & Hlead & Hhead).
      exists (c :: lead). repeat split; [|by constructor|done].
      cbn [app]. by f_equal.
    + exists []. repeat split; [constructor|].
      intros c' Hc'. cbn in Hc'. by inversion Hc'; subst.
Qed.

Lemma trim_leading_blank lead str :
  blank lead -> trim_leading (lead ++ str) = trim_leading str.
Proof.
  induction 1 as [|c lead Hc _ IH]; cbn [app trim_leading]; [done|].
  by rewrite Hc.
Qed.

Lemma trim_leading_head str c :
  head str = Some c -> isspace c = false -> trim_leading str = str.
Proof.
  destruct str as [|c' rest]; [done|]. cbn. intros Hc Hs.
  inversion Hc; subst. by rewrite Hs.
Qed.

Lemma trim_trailing_le str e : (trim_trailing str e <= e)%nat.
Proof.
  induction e as [|e IH]; cbn [trim_trailing]; [done|].
  destruct (str !! S e) as [c|]; [|done].
  destruct (isspace c); lia.
Qed.

Lemma trim_trailing_blank str e :
  (e < length str)%nat ->
  blank (take (e - trim_trailing str e) (drop (S (trim_trailing str e)) str)).
Proof.
  induction e as [|e IH]; cbn [trim_trailing]; intros He.
  - constructor.
  - destruct (lookup_lt_is_Some_2 str (S e) He) as [c Hc]. rewrite Hc.
    destruct (isspace c) eqn:E.
    + pose proof (trim_trailing_le str e) as Hle.
      replace (S e - trim_trailing str e)%nat
        with (S (e - trim_trailing str e)) by lia.
      erewrite take_S_r.
      * apply Forall_app. split; [apply IH; lia|]. by repeat constructor.
      * rewrite lookup_drop, <- Hc. f_equal. lia.
    + rewrite Nat.sub_diag. constructor.
Qed.

Lemma trim_trailing_stop str e :
  (e < length str)%nat ->
  trim_trailing str e = O
  \/ exists c, str !! trim_trailing str e = Some c /\ isspace c = false.
Proof.
  induction e as [|e IH]; cbn [trim_trailing]; intros He; [by left|].
  destruct (lookup_lt_is_Some_2 str (S e) He) as [c Hc]. rewrite Hc.
  destruct (isspace c) eqn:E; [apply IH; lia|]. right. by exists c.
Qed.

(** The scan from [end] looks at no character behind [end]. *)
Lemma trim_trailing_app str rest e :
  (e < length str)%nat ->
  trim_trailing (str ++ rest) e = trim_trailing str e.
Proof.
  induction e as [|e IH]; cbn [trim_trailing]; intros He; [done|].
  rewrite lookup_app_l by done.
  destruct (str !! S e) as [c|]; [|done].
  destruct (isspace c); [apply IH; lia | done].
Qed.

Lemma trim_trailing_trimmed r trail :
  r <> [] ->
  (forall c, last r = Some c -> isspace c = false) ->
  blank trail ->
  trim_trailing (r ++ trail) (length (r ++ trail) - 1) = (length r - 1)%nat.
Proof.
  intros Hr Hlast. induction trail as [|x trail IH] using rev_ind; intros Hb.
  - rewrite app_nil_r.
    destruct (length r - 1)%nat as [|e] eqn:He; [done|]. cbn [trim_trailing].
    assert (Hx : last r = r !! S e).
    { rewrite last_lookup. f_equal. lia. }
    destruct (r !! S e) as [c|] eqn:Hc; [|done].
    by rewrite (Hlast c Hx).
  - apply Forall_app in Hb as [Hb Hx]. apply Forall_cons in Hx as [Hx _].
    assert (Hlen : (0 < length r)%nat) by (destruct r; [done | simpl; lia]).
    rewrite app_assoc, length_app. cbn [length].
    replace (length (r ++ trail) + 1 - 1)%nat
      with (S (length (r ++ trail) - 1))
      by (rewrite length_app; lia).
    cbn [trim_trailing].
    replace (S (length (r ++ trail) - 1)) with (length (r ++ trail))
      by (rewrite length_app; lia).
    rewrite list_lookup_middle by done. rewrite Hx.
    rewrite trim_trailing_app by (rewrite length_app; lia).
    by apply IH.
Qed.

Lemma trimwhitespace_blank str : blank str -> trimwhitespace str = [].
Proof.
  intros Hb. unfold trimwhitespace.
  pose proof (trim_leading_blank str [] Hb) as Hnil.
  rewrite app_nil_r in Hnil. by rewrite Hnil.
Qed.

(** Whatever spaces stand around a string that neither begins nor ends
    with a space, [trimwhitespace] gives that string. *)
Lemma trimwhitespace_around lead r trail :
  blank lead -> blank trail -> trimmed r ->
  trimwhitespace (lead ++ r ++ trail) = r.
Proof.
  intros Hlead Htrail [Hhead Hlast].
  destruct (head r) as [c|] eqn:Hc.
  - assert (Hne : r <> []) by (by destruct r).
    assert (Hlen : (0 < length r)%nat) by (destruct r; [done | simpl; lia]).
    unfold trimwhitespace. rewrite trim_leading_blank by done.
    rewrite (trim_leading_head (r ++ trail) c).
    + destruct (r ++ trail) as [|c0 rt] eqn:Hrt; [by destruct r|].
      rewrite <- Hrt, (trim_trailing_trimmed r trail Hne Hlast Htrail).
      replace (S (length r - 1)) with (length r) by lia.
      apply take_app_length.
    + by destruct r.
    + by apply Hhead.
  - destruct r; [|done]. cbn [app].
    apply trimwhitespace_blank. by apply Forall_app.
Qed.

Lemma trimwhitespace_split str :
  exists lead trail,
    str = lead ++ trimwhitespace str ++ trail
    /\ blank lead /\ blank trail /\ trimmed (trimwhitespace str).
Proof.
  destruct (trim_leading_split str) as (lead & Heq & Hlead & Hhead).
  unfold trimwhitespace. destruct (trim_leading str) as [|c rest] eqn:Ht.
  - exists lead, []. repeat split; try done. constructor.
  - set (s := c :: rest) in *.
    set (k := trim_trailing s (length s - 1)).
    assert (Hlen : (length s - 1 < length s)%nat) by (subst s; simpl; lia).
    assert (Hk : (k <= length s - 1)%nat) by apply trim_trailing_le.
    exists lead, (drop (S k) s). split; [by rewrite take_drop|].
    split; [done|]. split.
    + pose proof (trim_trailing_blank s (length s - 1) Hlen) as Hb.
      fold k in Hb. by rewrite take_ge in Hb by (rewrite length_drop; lia).
    + split.
      * intros c' Hc'. apply Hhead. by destruct s.
      * intros c' Hc'. rewrite last_lookup, length_take_le in Hc' by lia.
        cbn [pred] in Hc'. rewrite lookup_take_lt in Hc' by lia.
        destruct (trim_trailing_stop s (length s - 1) Hlen) as [H0|(c0 & Hc0 & Hs)];
          fold k in H0 || fold k in Hc0.
        -- rewrite H0 in Hc'. apply Hhead. by rewrite head_lookup.
        -- rewrite Hc0 in Hc'. by inversion Hc'; subst.
Qed.

(** X1: [trimwhitespace] gives the one string that neither begins nor
    ends with a space and that, with spaces only before and behind it,
    makes up the string it is given. *)
Theorem trimwhitespace_spec str r :
  trimwhitespace str = r
  <-> exists lead trail,
        str = lead ++ r ++ trail
        /\ blank lead /\ blank trail /\ trimmed r.
Proof.
  split.
  - intros <-. apply trimwhitespace_split.
  - intros (lead & trail & -> & Hlead & Htrail & Hr).
    by apply trimwhitespace_around.
Qed.

(** X2: trimming twice is trimming once. *)
Theorem trimwhitespace_idempotent str :
  trimwhitespace (trimwhitespace str) = trimwhitespace str.
Proof.
  destruct (trimwhitespace_split str) as (_ & _ & _ & _ & _ & Hr).
  pose proof (trimwhitespace_around [] (trimwhitespace str) []) as H.
  rewrite app_nil_r in H. apply H; [constructor | constructor | done].
Qed.

(** X3: [trimwhitespace] gives the empty string for the strings of spaces
    only, the empty string among them, and for no other. *)
Theorem trimwhitespace_nil str :
  trimwhitespace str = [] <-> blank str.
Proof.
  split; [|apply trimwhitespace_blank].
  intros Hnil. destruct (trimwhitespace_split str) as (lead & trail & Heq & H1 & H2 & _).
  rewrite Hnil in Heq. rewrite Heq. by apply Forall_app.
Qed.

(** X4: the strings [trimwhitespace] leaves as they are, spaces inside
    them included, are those that neither begin nor end with a space. *)
Theorem trimwhitespace_fixed str :
  trimwhitespace str = str <-> trimmed str.
Proof.
  split.
  - intros Heq. destruct (trimwhitespace_split str) as (_ & _ & _ & _ & _ & Hr).
    by rewrite Heq in Hr.
  - intros Hr. pose proof (trimwhitespace_around [] str []) as H.
    rewrite app_nil_r in H. apply H; [constructor | constructor | done].
Qed.

(** X5: the string [trimwhitespace] returns is no longer than the one it
    is given, so the [strcpy] of line 336 into [line], an array of the
    size of [sline], stays within it. *)
Theorem trimwhitespace_length str :
  (length (trimwhitespace str) <= length str)%nat.
Proof.
  destruct (trimwhitespace_split str) as (lead & trail & Heq & _).
  rewrite Heq at 2. rewrite !length_app. lia.
Qed.

(** ** Cancel_Alarm on an id that is on the list *)

Lemma Cancel_Alarm_loop_found id before a after :
  Forall (fun b => alarm_id b <> id) before ->
  alarm_id a = id ->
  Cancel_Alarm_loop id (before ++ a :: after) = Some (before ++ after).
Proof.
  intros Hb Ha. induction Hb as [|b before Hne _ IH]; cbn [app Cancel_Alarm_loop].
  - by destruct (Z.eqb_spec (alarm_id a) id).
  - destruct (Z.eqb_spec (alarm_id b) id); [done|]. by rewrite IH.
Qed.

(** X6: [Cancel_Alarm] takes the first alarm with the id off the list and
    leaves the alarms before and behind it, later alarms with the same
    id among them, in their order; it prints no complaint and writes to no
    character array. *)
Theorem Cancel_Alarm_removes_first id st before a after :
  alarm_list st = before ++ a :: after ->
  Forall (fun b => alarm_id b <> id) before ->
  alarm_id a = id ->
  Cancel_Alarm id st
  = Returns [Canceling_alarm id]
      {| alarm_list := before ++ after; memory := memory st |}.
Proof.
  intros Hl Hb Ha. unfold Cancel_Alarm.
  by rewrite Hl, (Cancel_Alarm_loop_found id before a after Hb Ha).
Qed.

Lemma Cancel_Alarm_removes_first_witness :
  let a1 := {| alarm_id := 1; seconds := 10; type := main_type; time := 10;
               message := [] |} in
  let a2 := {| alarm_id := 2; seconds := 20; type := main_type; time := 20;
               message := [] |} in
  let a2' := {| alarm_id := 2; seconds := 30; type := main_type; time := 30;
                message := [] |} in
  Cancel_Alarm 2 {| alarm_list := [a1; a2; a2']; memory := ∅ |}
  = Returns [Canceling_alarm 2] {| alarm_list := [a1; a2']; memory := ∅ |}.
Proof.
  intros a1 a2 a2'.
  apply (Cancel_Alarm_removes_first 2
           {| alarm_list := [a1; a2; a2']; memory := ∅ |} [a1] a2 [a2']).
  - reflexivity.
  - constructor; [simpl; lia | constructor].
  - reflexivity.
Defined.

(** X7: when no two alarms on the list have the same id, the id given to
    [Cancel_Alarm] is on the list no more when it returns, and a second
    [Cancel_Alarm] with it reports that the alarm does not exist and
    changes nothing. *)
Theorem Cancel_Alarm_twice id st out st' :
  NoDup (ids st) ->
  Cancel_Alarm id st = Returns out st' ->
  (id ∉ ids st')
  /\ Cancel_Alarm id st'
     = Returns [Canceling_alarm id; Alarm_does_not_exist id] st'.
Proof.
  intros Hnd Hc.
  assert (Hnot : id ∉ ids st').
  { unfold Cancel_Alarm in Hc. unfold ids in *.
    destruct (Cancel_Alarm_loop id (alarm_list st)) as [l|] eqn:E.
    - inversion Hc; subst; clear Hc. cbn [alarm_list].
      apply Cancel_Alarm_loop_Some in E
        as (before & a & after & Hl & -> & Ha & Hb).
      rewrite Hl, fmap_app, fmap_cons, NoDup_app, NoDup_cons in Hnd.
      destruct Hnd as (_ & Hdisj & Ha' & _).
      rewrite fmap_app, elem_of_app. intros [Hin|Hin].
      + apply (Hdisj id Hin). rewrite Ha. by apply elem_of_cons; left.
      + by rewrite Ha in Ha'.
    - inversion Hc; subst; clear Hc.
      apply Cancel_Alarm_loop_None in E. intros Hin.
      apply list_elem_of_fmap in Hin as (b & Hb & Hin).
      rewrite Forall_forall in E. by apply (E b Hin). }
  split; [done|]. unfold Cancel_Alarm.
  rewrite (proj2 (Cancel_Alarm_loop_None id (alarm_list st'))); [done|].
  apply Forall_forall. intros b Hb Heq. apply Hnot. unfold ids.
  rewrite <- Heq. by apply list_elem_of_fmap_2.
Qed.

Lemma Cancel_Alarm_twice_witness :
  let a1 := {| alarm_id := 1; seconds := 10; type := main_type; time := 10;
               message := [] |} in
  let a2 := {| alarm_id := 2; seconds := 20; type := main_type; time := 20;
               message := [] |} in
  let st' := {| alarm_list := [a1]; memory := ∅ |} in
  (2 ∉ ids st')
  /\ Cancel_Alarm 2 st'
     = Returns [Canceling_alarm 2; Alarm_does_not_exist 2] st'.
Proof.
  intros a1 a2 st'.
  apply (Cancel_Alarm_twice 2 {| alarm_list := [a1; a2]; memory := ∅ |}
           [Canceling_alarm 2] st').
  - unfold ids. cbn. apply NoDup_cons. split.
    + intros Hin. apply list_elem_of_singleton in Hin. discriminate Hin.
    + apply NoDup_singleton.
  - reflexivity.
Defined.

(** ** Start_Alarm and Cancel_Alarm *)

Lemma Start_Alarm_scan_length id l :
  (length (Start_Alarm_scan id l) <= length l)%nat.
Proof.
  induction l as [|n link IH]; cbn [Start_Alarm_scan]; [done|].
  destruct (alarm_id n >=? id); cbn [length]; lia.
Qed.

Lemma Start_Alarm_scan_same id l :
  Start_Alarm_scan id l = l
  <-> match l with
      | [] => True
      | n :: _ => id <= alarm_id n
      end.
Proof.
  destruct l as [|n link]; cbn [Start_Alarm_scan]; [done|].
  destruct (Z.geb_spec (alarm_id n) id) as [Hge|Hlt].
  - split; [lia | done].
  - split; [|lia]. intros Heq.
    pose proof (Start_Alarm_scan_length id link) as Hlen.
    rewrite Heq in Hlen. cbn [length] in Hlen. lia.
Qed.

(** X8: a [Cancel_Alarm] right after a [Start_Alarm] with the same id
    takes the new alarm off again, and what is left is the list from the
    place the scan of [Start_Alarm] stopped at; that is the list as it
    was before the two calls only when it was empty or began with an id
    that is not below the new one. *)
Theorem Start_Alarm_Cancel_Alarm now id ty secs msg st :
  (length msg < sizeof_message)%nat ->
  exists st1 st2,
    Start_Alarm true now id ty secs msg st = Returns [Starting_Alarm id] st1
    /\ Cancel_Alarm id st1 = Returns [Canceling_alarm id] st2
    /\ alarm_list st2 = Start_Alarm_scan id (alarm_list st)
    /\ memory st2 = memory st
    /\ (alarm_list st2 = alarm_list st
        <-> match alarm_list st with
            | [] => True
            | n :: _ => id <= alarm_id n
            end).
Proof.
  intros Hlen. eexists _, _.
  split; [by apply Start_Alarm_returns|].
  split.
  { unfold Cancel_Alarm. cbn [alarm_list memory Cancel_Alarm_loop alarm_id].
    by rewrite Z.eqb_refl. }
  cbn [alarm_list memory app]. repeat split; try done.
  - by intros H%Start_Alarm_scan_same.
  - by intros H%Start_Alarm_scan_same.
Qed.

Lemma Start_Alarm_Cancel_Alarm_witness :
  let a1 := {| alarm_id := 1; seconds := 10; type := main_type; time := 10;
               message := [] |} in
  let a3 := {| alarm_id := 3; seconds := 30; type := main_type; time := 30;
               message := [] |} in
  exists st1 st2,
    Start_Alarm true 0 2 main_type 20 [] {| alarm_list := [a1; a3]; memory := ∅ |}
    = Returns [Starting_Alarm 2] st1
    /\ Cancel_Alarm 2 st1 = Returns [Canceling_alarm 2] st2
    /\ alarm_list st2 = [a3].
Proof.
  intros a1 a3.
  destruct (Start_Alarm_Cancel_Alarm 0 2 main_type 20 []
              {| alarm_list := [a1; a3]; memory := ∅ |})
    as (st1 & st2 & H1 & H2 & H3 & _).
  - unfold sizeof_message. simpl. lia.
  - exists st1, st2. split; [exact H1|]. split; [exact H2|]. exact H3.
Defined.

(** ** Start_Alarm on a list in the order of the ids *)

Lemma filter_not_below id l :
  Forall (fun a => id <= alarm_id a) l ->
  filter (fun a => id <= alarm_id a) l = l.
Proof.
  induction 1 as [|a l Ha _ IH]; [done|].
  rewrite filter_cons_True by done. by f_equal.
Qed.

Lemma Start_Alarm_scan_filter id l :
  ascending alarm_id l ->
  Start_Alarm_scan id l = filter (fun a => id <= alarm_id a) l.
Proof.
  induction l as [|n link IH]; cbn [Start_Alarm_scan]; [done|].
  intros [Hall Hs]%ascending_cons.
  destruct (Z.geb_spec (alarm_id n) id) as [Hge|Hlt].
  - symmetry. apply filter_not_below. constructor; [lia|].
    eapply Forall_impl; [exact Hall|]. simpl. intros b Hb. lia.
  - rewrite filter_cons_False by lia. by apply IH.
Qed.

(** X9: in a state reached by turns other than requests by seconds and
    message, a [Start_Alarm] line that returns leaves the new alarm
    followed by exactly the alarms whose id is not below the new id, in
    the order they had; every alarm with a smaller id is off the list. *)
Theorem Start_Alarm_keeps_larger evs out st e id ty secs msg out' st' :
  forallb by_id evs = true ->
  run evs alarm_list_NULL = Returns out st ->
  main e (Start_Alarm_line id ty secs msg) st = Returns out' st' ->
  exists a,
    alarm_id a = id
    /\ alarm_list st' = a :: filter (fun b => id <= alarm_id b) (alarm_list st).
Proof.
  intros Hby Hrun Hmain.
  assert (Hs : ascending alarm_id (alarm_list st)).
  { apply (run_ascending alarm_id by_id effect_ascending_id
             evs alarm_list_NULL out st Hby Hrun). constructor. }
  pose proof (step_effect (Main e (Start_Alarm_line id ty secs msg)) st out' st' Hmain)
    as Heff.
  inversion Heff as [e0 id0 ty0 secs0 msg0 a Ha Ht Hl' | | | | | ev Hnone Hl']; subst.
  - exists a. split; [done|]. by rewrite Hl', Start_Alarm_scan_filter.
  - done.
Qed.

Lemma Start_Alarm_keeps_larger_witness :
  let a1 := {| alarm_id := 1; seconds := 10; type := main_type; time := 13;
               message := [] |} in
  let a3 := {| alarm_id := 3; seconds := 40; type := main_type; time := 42;
               message := [] |} in
  let a2 := {| alarm_id := 2; seconds := 9; type := main_type; time := 14;
               message := [] |} in
  let st := {| alarm_list := [a1; a3];
               memory := {[ main_type := {| capacity := sizeof_main_type;
                                            text := list_ascii_of_string "D" |} ]} |} in
  let st' := {| alarm_list := [a2; a3];
                memory := {[ main_type := {| capacity := sizeof_main_type;
                                             text := list_ascii_of_string "E" |} ]} |} in
  exists a,
    alarm_id a = 2
    /\ alarm_list st' = a :: filter (fun b => 2 <= alarm_id b) (alarm_list st).
Proof.
  intros a1 a3 a2 st st'.
  eapply (Start_Alarm_keeps_larger run_1_3 _ st (at_time 5) 2
            (list_ascii_of_string "E") 9 [] [Starting_Alarm 2] st');
    vm_compute; reflexivity.
Defined.

(** ** Turns of the alarm thread *)

(** X10: whatever the clock shows, as many turns of the alarm thread as
    there are times in [ts] print the first alarms of the list, one line
    for each and in the order of the list, and leave the others on the
    list; once the list is empty further turns print nothing. *)
Theorem alarm_thread_drains ts st :
  run (Alarm_thread <$> ts) st
  = Returns ((fun a => Expired (seconds a) (message a))
               <$> take (length ts) (alarm_list st))
      {| alarm_list := drop (length ts) (alarm_list st); memory := memory st |}.
Proof.
  revert st. induction ts as [|t ts IH]; intros [l m]; cbn [fmap list_fmap run length].
  - done.
  - unfold step, alarm_thread, prints. cbn [alarm_list memory].
    destruct l as [|a link]; cbn [alarm sleep_time unlocked].
    + unfold mbind, outcome_bind. rewrite IH. cbn [alarm_list memory].
      by rewrite take_nil, drop_nil.
    + unfold mbind, outcome_bind. rewrite IH. by cbn [alarm_list memory].
Qed.

(** X11: in a state reached while the clock did not go back, the clock
    reading of a turn of the alarm thread and the seconds it then waits
    add up to no less than the expiry of the alarm it takes, and to that
    expiry when the alarm has not expired: the alarm is printed at its
    time or late, never early. *)
Theorem alarm_thread_not_early evs out st t a link :
  well_timed 0 evs ->
  run evs alarm_list_NULL = Returns out st ->
  last_clock 0 evs <= t ->
  alarm_list st = a :: link ->
  time a <= t + waits (alarm_thread t st)
  /\ (t < time a -> t + waits (alarm_thread t st) = time a).
Proof.
  intros Hw Hrun Hlast Hl.
  assert (Hfit : Forall (fun b => time b <= last_clock 0 evs + Int.INT_MAX)
                   (alarm_list st)).
  { by apply (run_time_fits evs 0 alarm_list_NULL out st). }
  rewrite Hl in Hfit. apply Forall_cons in Hfit as [Ha _].
  unfold waits, alarm_thread. rewrite Hl. cbn [sleep_time].
  destruct (Z.leb_spec (time a) t) as [Hle|Hlt].
  - cbn. lia.
  - rewrite time_diff_int_small
      by (unfold Int.is_int, Int.INT_MIN, Int.INT_MAX in *; simpl in *; lia).
    destruct (Z.gtb_spec (time a - t) 0); lia.
Qed.

Lemma alarm_thread_not_early_witness :
  exists out st a link,
    run run_1_3 alarm_list_NULL = Returns out st
    /\ alarm_list st = a :: link
    /\ time a = 13
    /\ time a <= 5 + waits (alarm_thread 5 st).
Proof.
  eexists _, _, _, _. split; [vm_compute; reflexivity|].
  split; [reflexivity|]. split; [reflexivity|].
  eapply (alarm_thread_not_early run_1_3).
  - cbv. repeat split; discriminate.
  - vm_compute. reflexivity.
  - simpl. lia.
  - reflexivity.
Defined.

(** X12: when no two alarms on the list have the same id and the alarm
    thread has taken the first alarm, a [Cancel_Alarm] with the id of
    that alarm reports that the alarm does not exist and leaves the list
    as the thread left it. *)
Theorem alarm_thread_then_Cancel_Alarm now st a link :
  alarm_list st = a :: link ->
  NoDup (ids st) ->
  Cancel_Alarm (alarm_id a) (unlocked (alarm_thread now st))
  = Returns [Canceling_alarm (alarm_id a); Alarm_does_not_exist (alarm_id a)]
      (unlocked (alarm_thread now st)).
Proof.
  intros Hl Hnd. unfold alarm_thread. rewrite Hl. cbn [unlocked].
  unfold Cancel_Alarm. cbn [alarm_list].
  rewrite (proj2 (Cancel_Alarm_loop_None (alarm_id a) link)); [done|].
  unfold ids in Hnd. rewrite Hl, fmap_cons, NoDup_cons in Hnd.
  destruct Hnd as [Hnot _]. apply Forall_forall. intros b Hb Heq.
  apply Hnot. rewrite <- Heq. by apply list_elem_of_fmap_2.
Qed.

Lemma alarm_thread_then_Cancel_Alarm_witness :
  let a1 := {| alarm_id := 1; seconds := 10; type := main_type; time := 10;
               message := [] |} in
  let a2 := {| alarm_id := 2; seconds := 20; type := main_type; time := 20;
               message := [] |} in
  Cancel_Alarm 1 {| alarm_list := [a2]; memory := ∅ |}
  = Returns [Canceling_alarm 1; Alarm_does_not_exist 1]
      {| alarm_list := [a2]; memory := ∅ |}.
Proof.
  intros a1 a2.
  apply (alarm_thread_then_Cancel_Alarm 0
           {| alarm_list := [a1; a2]; memory := ∅ |} a1 [a2]).
  - reflexivity.
  - unfold ids. cbn. apply NoDup_cons. split.
    + intros Hin. apply list_elem_of_singleton in Hin. discriminate Hin.
    + apply NoDup_singleton.
Defined.

(** ** What the calls return, in full *)

Lemma Start_Alarm_Returns malloc_ok now id ty secs msg st out st' :
  Start_Alarm malloc_ok now id ty secs msg st = Returns out st' ->
  malloc_ok = true
  /\ (length msg < sizeof_message)%nat
  /\ out = [Starting_Alarm id]
  /\ st' = {| alarm_list :=
                {| alarm_id := id; seconds := secs; type := ty;
                   time := Int.time_plus now secs; message := msg |}
                :: Start_Alarm_scan id (alarm_list st);
              memory := memory st |}.
Proof.
  unfold Start_Alarm, strcpy_message. destruct malloc_ok; cbn [negb]; [|done].
  destruct (Nat.leb_spec sizeof_message (length msg)) as [|Hlen]; [done|].
  intros Heq. by inversion Heq.
Qed.

Lemma strcpy_inv dst src m m' :
  strcpy dst src m = inr m' ->
  exists b, m !! dst = Some b
    /\ (length src < capacity b)%nat
    /\ m' = <[dst := {| capacity := capacity b; text := src |}]> m.
Proof.
  unfold strcpy. destruct (m !! dst) as [b|]; [|done].
  destruct (Nat.leb_spec (capacity b) (length src)) as [|Hlen]; [done|].
  intros Heq. inversion Heq. by exists b.
Qed.

Lemma store_nul_inv dst i m m' :
  store_nul dst i m = inr m' ->
  exists b, m !! dst = Some b
    /\ (i < capacity b)%nat
    /\ m' = <[dst := {| capacity := capacity b; text := take i (text b) |}]> m.
Proof.
  unfold store_nul. destruct (m !! dst) as [b|]; [|done].
  destruct (Nat.leb_spec (capacity b) i) as [|Hlen]; [done|].
  intros Heq. inversion Heq. by exists b.
Qed.

Lemma Change_Alarm_update_inv now ty secs msg a m a' m' :
  Change_Alarm_update now ty secs msg a m = inr (a', m') ->
  exists dst, m !! type a = Some dst
    /\ (length ty < capacity dst)%nat
    /\ (sizeof_type - 1 < capacity dst)%nat
    /\ (length msg < sizeof_message)%nat
    /\ a' = {| alarm_id := alarm_id a; seconds := secs; type := type a;
               time := Int.time_plus now secs; message := msg |}
    /\ m' = <[type a := {| capacity := capacity dst;
                           text := take (sizeof_type - 1) ty |}]> m.
Proof.
  unfold Change_Alarm_update. intros H.
  destruct (strcpy (type a) ty m) as [u|m1] eqn:E1; [done|].
  destruct (store_nul (type a) (sizeof_type - 1) m1) as [u|m2] eqn:E2; [done|].
  unfold strcpy_message in H.
  destruct (Nat.leb_spec sizeof_message (length msg)) as [|Hmsg]; [done|].
  inversion H; subst; clear H.
  apply strcpy_inv in E1 as (dst & Hdst & Hlen & ->).
  apply store_nul_inv in E2 as (b & Hb & Hnul & ->).
  rewrite lookup_insert_eq in Hb. inversion Hb; subst; clear Hb.
  cbn [capacity text] in *.
  exists dst. repeat split; try done.
  - by rewrite take_ge by (unfold sizeof_message in *; lia).
  - by rewrite insert_insert_eq.
Qed.

Lemma sscanf_type_message_Returns ty msg st out message st' :
  sscanf_type_message ty msg st = Returns out (message, st') ->
  exists b, memory st !! main_type = Some b
    /\ (length ty < capacity b)%nat
    /\ (length (take 128 msg) < sizeof_main_message)%nat
    /\ message = take 128 msg
    /\ st' = {| alarm_list := alarm_list st;
                memory := <[main_type := {| capacity := capacity b; text := ty |}]>
                            (memory st) |}.
Proof.
  unfold sscanf_type_message. intros H.
  apply bind_Returns in H as (out1 & m & out2 & Hs & H & _).
  destruct (strcpy main_type ty (memory st)) as [u|m1] eqn:E; [done|].
  cbn [lift] in Hs. inversion Hs; subst; clear Hs.
  apply strcpy_inv in E as (b & Hb & Hlen & ->).
  destruct (Nat.leb_spec sizeof_main_message (length (take 128 msg))) as [|Hmsg];
    [done|].
  inversion H; subst. by exists b.
Qed.

Lemma sscanf_type_message_fits ty msg st b :
  memory st !! main_type = Some b ->
  (length ty < capacity b)%nat ->
  (length msg < sizeof_main_message)%nat ->
  sscanf_type_message ty msg st
  = Returns [] (msg, {| alarm_list := alarm_list st;
                        memory := <[main_type := {| capacity := capacity b; text := ty |}]>
                                    (memory st) |}).
Proof.
  intros Hb Hty Hmsg. unfold sscanf_type_message.
  rewrite (strcpy_returns _ _ _ b Hb Hty). cbn [lift].
  unfold mbind, outcome_bind.
  rewrite (take_ge msg) by (unfold sizeof_main_message in *; lia).
  destruct (Nat.leb_spec sizeof_main_message (length msg)); [lia | done].
Qed.

(** ** One type array for every alarm *)

Lemma shares_type_insert st l b c :
  memory st !! main_type = Some b ->
  capacity b = sizeof_main_type ->
  Forall (fun a => type a = main_type) l ->
  shares_type
    {| alarm_list := l;
       memory := <[main_type := {| capacity := capacity b; text := c |}]> (memory st) |}.
Proof.
  intros Hb Hcap Hl. split; [|done]. eexists. cbn [memory].
  by rewrite lookup_insert_eq.
Qed.

Lemma Change_Alarm_shares_type now id secs msg st out st' :
  shares_type st ->
  Change_Alarm now id main_type secs msg st = Returns out st' ->
  shares_type st'.
Proof.
  intros [(b & Hb & Hcap) Hl]. unfold Change_Alarm. rewrite Hb.
  destruct (Change_Alarm_loop _ _ _ _) as [u|[[l m]|]] eqn:E; [done| |].
  - intros H. inversion H; subst; clear H.
    apply Change_Alarm_loop_Some in E
      as (before & a & a' & after & Heq & -> & _ & Hu).
    apply Change_Alarm_update_inv in Hu
      as (dst & Hdst & _ & _ & _ & -> & ->).
    rewrite Heq in Hl. apply Forall_app in Hl as [H1 H2].
    apply Forall_cons in H2 as [Ha H2].
    rewrite Ha in *. rewrite Hb in Hdst. inversion Hdst; subst dst.
    apply (shares_type_insert st); try done.
    apply Forall_app. split; [done|]. by constructor.
  - intros H. inversion H; subst. split; [by exists b | done].
Qed.

Lemma step_shares_type ev st out st' :
  by_id ev = true ->
  shares_type st ->
  step ev st = Returns out st' ->
  shares_type st'.
Proof.
  intros Hby Hsh. pose proof Hsh as [(b & Hb & Hcap) Hl].
  destruct ev as [e c|now]; cbn [step].
  - unfold main. destruct (main_malloc e); cbn [negb]; [|done].
    destruct c as [id ty secs msg|id ty secs msg|id| |secs msg|[ty|]].
    + intros H.
      apply bind_Returns in H as (out1 & [message st1] & out2 & Hs & H & _).
      apply sscanf_type_message_Returns in Hs as (b' & Hb' & _ & _ & _ & ->).
      apply Start_Alarm_Returns in H as (_ & _ & _ & ->).
      rewrite Hb in Hb'. inversion Hb'; subst b'. cbn [alarm_list memory].
      apply (shares_type_insert st); try done. constructor; [done|].
      destruct (Start_Alarm_scan_suffix id (alarm_list st)) as (skipped & Heq & _).
      rewrite Heq in Hl. by apply Forall_app in Hl as [_ Hl].
    + intros H.
      apply bind_Returns in H as (out1 & [message st1] & out2 & Hs & H & _).
      apply sscanf_type_message_Returns in Hs as (b' & Hb' & _ & _ & _ & ->).
      rewrite Hb in Hb'. inversion Hb'; subst b'.
      eapply Change_Alarm_shares_type; [|exact H].
      by apply (shares_type_insert st).
    + unfold Cancel_Alarm.
      destruct (Cancel_Alarm_loop id (alarm_list st)) as [l|] eqn:E.
      * intros H. inversion H; subst; clear H.
        apply Cancel_Alarm_loop_Some in E as (before & a & after & Heq & -> & _).
        split; [by exists b|]. cbn [alarm_list]. rewrite Heq in Hl.
        apply Forall_app in Hl as [H1 H2]. apply Forall_cons in H2 as [_ H2].
        by apply Forall_app.
      * intros H. by inversion H; subst.
    + by intros ->%View_Alarms_inv.
    + done.
    + intros H.
      apply bind_Returns in H as (out1 & m & out2 & Hs & H & _).
      destruct (strcpy main_type ty (memory st)) as [u|m1] eqn:E; [done|].
      cbn [lift] in Hs. inversion Hs; subst; clear Hs.
      apply strcpy_inv in E as (b' & Hb' & _ & ->).
      rewrite Hb in Hb'. inversion Hb'; subst b'.
      inversion H; subst. by apply (shares_type_insert st).
    + intros H. by inversion H; subst.
  - unfold alarm_thread. destruct (alarm_list st) as [|a link] eqn:E;
      cbn [unlocked]; intros H; inversion H; subst; [done|].
    split; [by exists b|]. cbn [alarm_list].
    by apply Forall_cons in Hl as [_ Hl].
Qed.

Lemma run_shares_type evs st out st' :
  forallb by_id evs = true ->
  shares_type st ->
  run evs st = Returns out st' ->
  shares_type st'.
Proof.
  revert st out. induction evs as [|ev evs IH]; cbn [forallb run];
    intros st out Hby Hsh Hrun.
  - by inversion Hrun; subst.
  - apply andb_prop in Hby as [Hev Hby].
    apply bind_Returns in Hrun as (out1 & st1 & out2 & Hstep & Hrun & _).
    apply (IH st1 out2 Hby); [|done].
    by apply (step_shares_type ev st out1 st1).
Qed.

Lemma alarm_list_NULL_shares_type : shares_type alarm_list_NULL.
Proof.
  split; [|constructor].
  exists {| capacity := sizeof_main_type; text := [] |}.
  split; [apply lookup_singleton_eq | reflexivity].
Qed.

Lemma View_Alarms_loop_shared now m l p b :
  m !! p = Some b ->
  Forall (fun a => type a = p) l ->
  View_Alarms_loop now m l = (view_line now (text b) <$> l, None).
Proof.
  intros Hb. induction 1 as [|a l Ha _ IH]; cbn [View_Alarms_loop]; [done|].
  by rewrite Ha, Hb, IH.
Qed.

Lemma View_Alarms_shared now st b :
  memory st !! main_type = Some b ->
  Forall (fun a => type a = main_type) (alarm_list st) ->
  View_Alarms now st
  = Returns (Viewing_Alarms
             :: match alarm_list st with
                | [] => [There_are_no_alarms]
                | _ :: _ => view_line now (text b) <$> alarm_list st
                end) st.
Proof.
  intros Hb Hl. unfold View_Alarms.
  destruct (alarm_list st) as [|a l] eqn:E; [done|].
  by rewrite (View_Alarms_loop_shared now (memory st) (a :: l) main_type b Hb Hl).
Qed.

(** X13: in every state reached from the empty list by turns other than
    requests by seconds and message, the [type] of every alarm points to
    the one [type] array of [main]; [View_Alarms] then returns, changes
    nothing, and prints the alarms in the order of the list, every one
    of them with the same type, the string that array holds. *)
Theorem View_Alarms_one_type evs out st now :
  forallb by_id evs = true ->
  run evs alarm_list_NULL = Returns out st ->
  exists b,
    memory st !! main_type = Some b
    /\ Forall (fun a => type a = main_type) (alarm_list st)
    /\ View_Alarms now st
       = Returns (Viewing_Alarms
                  :: match alarm_list st with
                     | [] => [There_are_no_alarms]
                     | _ :: _ => view_line now (text b) <$> alarm_list st
                     end) st.
Proof.
  intros Hby Hrun.
  destruct (run_shares_type evs alarm_list_NULL out st Hby
              alarm_list_NULL_shares_type Hrun) as [(b & Hb & _) Hl].
  exists b. repeat split; try done. by apply View_Alarms_shared.
Qed.

Lemma View_Alarms_one_type_witness :
  exists out st b,
    run run_100_200 alarm_list_NULL = Returns out st
    /\ memory st !! main_type = Some b
    /\ text b = list_ascii_of_string "B"
    /\ View_Alarms 10 st
       = Returns (Viewing_Alarms :: (view_line 10 (text b) <$> alarm_list st)) st.
Proof.
  destruct (run run_100_200 alarm_list_NULL) as [out st|out u|out] eqn:Hrun;
    try (vm_compute in Hrun; discriminate Hrun).
  destruct (View_Alarms_one_type run_100_200 out st 10 eq_refl Hrun)
    as (b & Hb & _ & Hview).
  exists out, st, b. split; [reflexivity|]. split; [exact Hb|].
  vm_compute in Hrun. inversion Hrun; subst; clear Hrun.
  split.
  - vm_compute in Hb. inversion Hb. reflexivity.
  - exact Hview.
Defined.

(** X14: in such a state a [Start_Alarm] line that returns has stored its
    type in the array all the alarms share: [View_Alarms] then shows the
    type of the new alarm for every alarm on the list, the older ones
    too. *)
Theorem Start_Alarm_line_retypes evs out st e id ty secs msg out' st' now' :
  forallb by_id evs = true ->
  run evs alarm_list_NULL = Returns out st ->
  main e (Start_Alarm_line id ty secs msg) st = Returns out' st' ->
  View_Alarms now' st'
  = Returns (Viewing_Alarms :: (view_line now' ty <$> alarm_list st')) st'.
Proof.
  intros Hby Hrun Hmain.
  pose proof (run_shares_type evs alarm_list_NULL out st Hby
                alarm_list_NULL_shares_type Hrun) as Hsh.
  pose proof (step_shares_type (Main e (Start_Alarm_line id ty secs msg))
                st out' st' eq_refl Hsh Hmain) as [_ Hl'].
  revert Hmain. unfold main. destruct (main_malloc e); cbn [negb]; [|done].
  intros H.
  apply bind_Returns in H as (out1 & [message st1] & out2 & Hs & H & _).
  apply sscanf_type_message_Returns in Hs as (b & Hb & _ & _ & _ & ->).
  apply Start_Alarm_Returns in H as (_ & _ & _ & Heq).
  cbn [alarm_list memory] in Heq.
  rewrite (View_Alarms_shared now' st' {| capacity := capacity b; text := ty |});
    [|by rewrite Heq; cbn [memory]; rewrite lookup_insert_eq|done].
  by rewrite Heq.
Qed.

Lemma Start_Alarm_line_retypes_witness :
  exists out st out' st',
    run run_100_200 alarm_list_NULL = Returns out st
    /\ main (at_time 3) (Start_Alarm_line 0 (list_ascii_of_string "Z") 7 []) st
       = Returns out' st'
    /\ ids st' = [0; 1; 2]
    /\ View_Alarms 3 st'
       = Returns (Viewing_Alarms
                  :: (view_line 3 (list_ascii_of_string "Z") <$> alarm_list st')) st'.
Proof.
  eexists _, _, _, _. split; [vm_compute; reflexivity|].
  split; [vm_compute; reflexivity|]. split; [reflexivity|].
  eapply (Start_Alarm_line_retypes run_100_200 _ _ (at_time 3) 0
            (list_ascii_of_string "Z") 7 []); vm_compute; reflexivity.
Defined.

Lemma Change_Alarm_loop_None_inv id update l m :
  Change_Alarm_loop id update l m = inr None ->
  Forall (fun a => alarm_id a <> id) l.
Proof.
  induction l as [|a link IH]; cbn [Change_Alarm_loop]; [constructor|].
  destruct (Z.eqb_spec (alarm_id a) id) as [Heq|Hne].
  - by destruct (update a m) as [u|[a' m']].
  - destruct (Change_Alarm_loop id update link m) as [u|[[l' m']|]]; try done.
    intros _. constructor; [done | by apply IH].
Qed.

Lemma live_Forall id st :
  live id st = true -> ~ Forall (fun a => alarm_id a <> id) (alarm_list st).
Proof.
  unfold live. intros Hlive Hall.
  apply live_true, list_elem_of_fmap in Hlive as (a & Ha & Hin).
  rewrite Forall_forall in Hall. by apply (Hall a Hin).
Qed.

(** X15: in such a state a [Change_Alarm] line for an id that is on the
    list, when it returns, keeps the ids of the list and leaves the
    first [sizeof (char * ) - 1] characters of its type in the array all the
    alarms share: [View_Alarms] then shows that cut type for every alarm
    on the list, not for the changed one alone. *)
Theorem Change_Alarm_line_retypes evs out st e id ty secs msg out' st' now' :
  forallb by_id evs = true ->
  run evs alarm_list_NULL = Returns out st ->
  live id st = true ->
  main e (Change_Alarm_line id ty secs msg) st = Returns out' st' ->
  ids st' = ids st
  /\ View_Alarms now' st'
     = Returns (Viewing_Alarms
                :: (view_line now' (take (sizeof_type - 1) ty) <$> alarm_list st'))
         st'.
Proof.
  intros Hby Hrun Hlive Hmain.
  pose proof (run_shares_type evs alarm_list_NULL out st Hby
                alarm_list_NULL_shares_type Hrun) as Hsh.
  pose proof (step_shares_type (Main e (Change_Alarm_line id ty secs msg))
                st out' st' eq_refl Hsh Hmain) as [_ Hl'].
  destruct Hsh as [_ Hl].
  revert Hmain. unfold main. destruct (main_malloc e); cbn [negb]; [|done].
  intros H.
  apply bind_Returns in H as (out1 & [message st1] & out2 & Hs & H & _).
  apply sscanf_type_message_Returns in Hs as (b & Hb & _ & _ & _ & ->).
  revert H. unfold Change_Alarm. cbn [alarm_list memory].
  rewrite lookup_insert_eq. cbn [text].
  destruct (Change_Alarm_loop _ _ _ _) as [u|[[l m]|]] eqn:E; [done| |].
  - intros H. inversion H; subst; clear H.
    apply Change_Alarm_loop_Some in E
      as (before & a & a' & after & Heq & -> & _ & Hu).
    apply Change_Alarm_update_inv in Hu
      as (dst & Hdst & _ & _ & _ & -> & ->).
    assert (Ha : type a = main_type).
    { rewrite Heq in Hl. apply Forall_app in Hl as [_ Hl].
      by apply Forall_cons in Hl as [Ha _]. }
    rewrite Ha in *. split.
    + unfold ids. cbn [alarm_list]. by rewrite Heq, !fmap_app, !fmap_cons.
    + rewrite insert_insert_eq.
      rewrite (View_Alarms_shared now' _
                 {| capacity := capacity dst; text := take (sizeof_type - 1) ty |});
        [|by cbn [memory]; rewrite lookup_insert_eq|done].
      cbn [alarm_list text]. by destruct before.
  - intros _. apply Change_Alarm_loop_None_inv in E.
    by apply live_Forall in Hlive.
Qed.

Lemma Change_Alarm_line_retypes_witness :
  exists out st out' st',
    run run_100_200 alarm_list_NULL = Returns out st
    /\ main (at_time 3)
         (Change_Alarm_line 2 (list_ascii_of_string "Reminder") 7 []) st
       = Returns out' st'
    /\ View_Alarms 3 st'
       = Returns (Viewing_Alarms
                  :: (view_line 3 (list_ascii_of_string "Reminde") <$> alarm_list st'))
           st'.
Proof.
  eexists _, _, _, _. split; [vm_compute; reflexivity|].
  split; [vm_compute; reflexivity|].
  eapply (Change_Alarm_line_retypes run_100_200 _ _ (at_time 3) 2
            (list_ascii_of_string "Reminder") 7 []); vm_compute; reflexivity.
Defined.

(** ** The lines main can take *)

(** X16: with the [type] array of [main] in place, a [Start_Alarm] line
    is handled within defined behaviour exactly when both allocations
    succeed, the type has fewer characters than that array has bytes,
    and the message has fewer than the 64 bytes of [alarm->message]. *)
Theorem Start_Alarm_line_returns e id ty secs msg st :
  shares_type st ->
  (exists out st', main e (Start_Alarm_line id ty secs msg) st = Returns out st')
  <-> main_malloc e = true
      /\ Start_malloc e = true
      /\ (length ty < sizeof_main_type)%nat
      /\ (length msg < sizeof_message)%nat.
Proof.
  intros [(b & Hb & Hcap) _]. unfold main. split.
  - intros (out & st' & H). destruct (main_malloc e); cbn [negb] in H; [|done].
    apply bind_Returns in H as (out1 & [message st1] & out2 & Hs & H & _).
    apply sscanf_type_message_Returns in Hs as (b' & Hb' & Hty & Hm & -> & ->).
    apply Start_Alarm_Returns in H as (Hmalloc & Hlen & _ & _).
    rewrite Hb in Hb'. inversion Hb'; subst b'.
    repeat split; try done; [lia|].
    rewrite length_take in Hlen. unfold sizeof_message in *. lia.
  - intros (Hm & Hs & Hty & Hlen). rewrite Hm, Hs. cbn [negb].
    rewrite (sscanf_type_message_fits ty msg st b Hb)
      by (unfold sizeof_main_message, sizeof_message in *; lia).
    unfold mbind, outcome_bind.
    rewrite Start_Alarm_returns by done. eauto.
Qed.

Lemma Start_Alarm_line_returns_witness :
  exists out st',
    main (at_time 0) (Start_Alarm_line 1 (list_ascii_of_string "A") 5
                        (list_ascii_of_string "hello")) alarm_list_NULL
    = Returns out st'.
Proof.
  apply (Start_Alarm_line_returns (at_time 0) 1 (list_ascii_of_string "A") 5
           (list_ascii_of_string "hello") alarm_list_NULL
           alarm_list_NULL_shares_type).
  repeat split; try reflexivity.
  - unfold sizeof_main_type. simpl. lia.
  - unfold sizeof_message. simpl. lia.
Defined.

(** X17: a request by seconds and message is handled within defined
    behaviour exactly when the allocation of line 331 succeeds and the
    message has fewer than 64 characters: the 64 characters that the
    format of line 368 lets through do not fit [alarm->message] with
    their NUL. *)
Theorem Timed_line_returns e secs msg st :
  (exists out st', main e (Timed_line secs msg) st = Returns out st')
  <-> main_malloc e = true /\ (length msg < sizeof_message)%nat.
Proof.
  unfold main, strcpy_message. split.
  - intros (out & st' & H). destruct (main_malloc e); cbn [negb] in H; [|done].
    split; [done|].
    destruct (Nat.leb_spec sizeof_message (length (take 64 msg))) as [|Hlen];
      [done|].
    rewrite length_take in Hlen. unfold sizeof_message in *. lia.
  - intros [Hm Hlen]. rewrite Hm. cbn [negb].
    destruct (Nat.leb_spec sizeof_message (length (take 64 msg))) as [Hge|_].
    + rewrite length_take in Hge. unfold sizeof_message in *. lia.
    + cbn [lift]. unfold mbind, outcome_bind. eauto.
Qed.

(** ** The insertion by expiry time *)


(** ** Change_Alarm and the other fields *)

(** X19: whatever it is given, a [Change_Alarm] that returns has added
    no alarm and taken none away, and has changed neither an id nor a
    [type] pointer. *)
Theorem Change_Alarm_keeps_ids now id ty secs msg st out st' :
  Change_Alarm now id ty secs msg st = Returns out st' ->
  ids st' = ids st
  /\ type <$> alarm_list st' = type <$> alarm_list st.
Proof.
  unfold Change_Alarm, ids. destruct (memory st !! ty) as [src|]; [|done].
  destruct (Change_Alarm_loop _ _ _ _) as [u|[[l m]|]] eqn:E; [done| |].
  - intros H. inversion H; subst; clear H. cbn [alarm_list].
    apply Change_Alarm_loop_Some in E
      as (before & a & a' & after & -> & -> & _ & Hu).
    apply Change_Alarm_update_inv in Hu as (dst & _ & _ & _ & _ & -> & _).
    by rewrite !fmap_app, !fmap_cons.
  - intros H. by inversion H; subst.
Qed.

Lemma Change_Alarm_keeps_ids_witness :
  let a1 := {| alarm_id := 1; seconds := 100; type := main_type; time := 100;
               message := [] |} in
  let a2 := {| alarm_id := 2; seconds := 200; type := main_type; time := 200;
               message := [] |} in
  let st := {| alarm_list := [a1; a2]; memory := memory alarm_list_NULL |} in
  exists out st',
    Change_Alarm 0 2 main_type 0 [] st = Returns out st'
    /\ ids st' = [1; 2].
Proof.
  intros a1 a2 st.
  destruct (Change_Alarm 0 2 main_type 0 [] st) as [out st'|out u|out] eqn:H;
    try (vm_compute in H; discriminate H).
  exists out, st'. split; [reflexivity|].
  by destruct (Change_Alarm_keeps_ids 0 2 main_type 0 [] st out st' H) as [-> _].
Defined.

(** ** The type of an alarm set by seconds and message *)




(** With alarm 1, due at 2, before it on the list, the line for alarm 1
    is printed before [View_Alarms] comes to the alarm without a type. *)
Example View_Alarms_prints_then_stops :
  let e := {| now := 0; main_malloc := true; Start_malloc := true;
              fresh_id := 0; fresh_type := 2%positive |} in
  let a1 := {| alarm_id := 1; seconds := 2; type := main_type; time := 2;
               message := list_ascii_of_string "egg" |} in
  let st := {| alarm_list := [a1]; memory := memory alarm_list_NULL |} in
  exists out st',
    main e (Timed_line 5 (list_ascii_of_string "rice")) st = Returns out st'
    /\ View_Alarms 1 st'
       = Undefined [Viewing_Alarms; view_line 1 [] a1] Invalid_pointer.
Proof.
  intros e a1 st. eexists _, _. split; [vm_compute; reflexivity|].
  vm_compute. reflexivity.
Qed.
